(** * Attribution-graph normalization and query evaluation

    A shallow embedding of the two pure cores of the visualisation:
    [normalizeGeo] (component NetworkGraph) and [analyzeQuery]
    (component QueryPanel), together with the loader callback that
    guards ingestion.

    Modelling conventions.
    - JavaScript strings are [string]; a character is a code unit below
      256 read as Latin-1.
    - [Map] and [Set] keep insertion order, so they are association
      lists and duplicate-free lists updated in place or at the end.
    - A plain object used as a dictionary ([targets], [nodeCounts]) is an
      association list in insertion order; keys are taken to be ordinary
      names (neither array-index strings nor members of Object.prototype).
    - Numbers (weights, degrees, counts) are integers [Z].
    - [forEach] is [fold_left], [map]/[filter] are [map]/[filter],
      [forEach] with [push] is [flat_map]. *)

From Stdlib Require Import List String Ascii ZArith Bool Arith Lia.
From Stdlib Require Import Permutation Sorted.
Import ListNotations.
Open Scope string_scope.
Open Scope list_scope.

Set Implicit Arguments.

(* ================================================================= *)
(** ** JavaScript strings *)

Module Js.

(** [String.prototype.toLowerCase] on Latin-1 code units. *)
Definition toLowerCase_char (c : ascii) : ascii :=
  let n := nat_of_ascii c in
  if (((65 <=? n) && (n <=? 90))
      || ((192 <=? n) && (n <=? 222) && negb (n =? 215)))%nat
  then ascii_of_nat (n + 32) else c.

Fixpoint toLowerCase (s : string) : string :=
  match s with
  | EmptyString => EmptyString
  | String c s' => String (toLowerCase_char c) (toLowerCase s')
  end.

(** [hay.includes(needle)] *)
Fixpoint includes (hay needle : string) : bool :=
  String.prefix needle hay ||
  match hay with
  | EmptyString => false
  | String _ h => includes h needle
  end.

(** White space as matched by [\s] and removed by [trim]. *)
Definition isSpace (c : ascii) : bool :=
  let n := nat_of_ascii c in
  (((9 <=? n) && (n <=? 13)) || (n =? 32) || (n =? 160))%nat.

(** The class [\w]. *)
Definition isWord (c : ascii) : bool :=
  let n := nat_of_ascii c in
  (((48 <=? n) && (n <=? 57)) || ((65 <=? n) && (n <=? 90))
   || ((97 <=? n) && (n <=? 122)) || (n =? 95))%nat.

Fixpoint trimStart (s : string) : string :=
  match s with
  | EmptyString => EmptyString
  | String c s' => if isSpace c then trimStart s' else s
  end.

Fixpoint rev (s : string) : string :=
  match s with
  | EmptyString => EmptyString
  | String c s' => String.append (rev s') (String c EmptyString)
  end.

Definition trim (s : string) : string := rev (trimStart (rev (trimStart s))).

(** [x || d] on a possibly missing string: the empty string is falsy. *)
Definition strOr (x : option string) (d : string) : string :=
  match x with
  | Some s => if String.eqb s "" then d else s
  | None => d
  end.

(** [x ?? d] *)
Definition nullish {A} (x : option A) (d : A) : A :=
  match x with Some v => v | None => d end.

(** [x || d] on a number: zero is falsy. *)
Definition numOr (x : option Z) (d : Z) : Z :=
  match x with
  | Some v => if Z.eqb v 0 then d else v
  | None => d
  end.

(** *** [Set] of strings, in insertion order *)

Definition set_has (s : list string) (x : string) : bool :=
  existsb (String.eqb x) s.

Definition set_add (s : list string) (x : string) : list string :=
  if set_has s x then s else s ++ [x].

(** [new Set(array)] *)
Definition set_of (l : list string) : list string := fold_left set_add l [].

(** *** [Map] with string keys, in insertion order *)

Section JsMap.
Variable V : Type.

Definition JsMap := list (string * V).

Fixpoint map_get (m : JsMap) (k : string) : option V :=
  match m with
  | [] => None
  | (k', v) :: m' => if String.eqb k' k then Some v else map_get m' k
  end.

Definition map_has (m : JsMap) (k : string) : bool :=
  match map_get m k with Some _ => true | None => false end.

(** An existing key keeps its position; a new key goes last. *)
Fixpoint map_set (m : JsMap) (k : string) (v : V) : JsMap :=
  match m with
  | [] => [(k, v)]
  | (k', v') :: m' =>
      if String.eqb k' k then (k', v) :: m' else (k', v') :: map_set m' k v
  end.

(** [new Map(entries)] *)
Definition map_of (l : list (string * V)) : JsMap :=
  fold_left (fun m kv => map_set m (fst kv) (snd kv)) l [].
End JsMap.

(** [array.sort((a, b) => key(b) - key(a))]: the sort is stable, so the
    result is the descending order by key in which equal keys keep their
    relative order. *)
Section SortDesc.
Variable A : Type.
Variable key : A -> Z.

Fixpoint insertDesc (x : A) (l : list A) : list A :=
  match l with
  | [] => [x]
  | y :: l' => if Z.leb (key y) (key x) then x :: y :: l'
               else y :: insertDesc x l'
  end.

Definition sortDesc (l : list A) : list A := fold_right insertDesc [] l.
End SortDesc.

End Js.

(* ================================================================= *)
(** ** Data model *)

(** An edge endpoint is a plain id or an object with an [id] field. *)
Inductive Endpoint :=
| PlainId (i : string)
| NodeObj (i : string).

(** [typeof e === 'object' ? e.id : e] *)
Definition endpointId (e : Endpoint) : string :=
  match e with PlainId i => i | NodeObj i => i end.

Record RawNode := mkRawNode {
  rn_id : string;
  rn_type : option string;
  rn_degree : option Z
}.

Record RawLink := mkRawLink {
  rl_source : Endpoint;
  rl_target : Endpoint;
  rl_weight : option Z;
  rl_type : option string
}.

(** The raw document; [None] is a missing ([undefined]/[null]) collection. *)
Record RawGraph := mkRawGraph {
  rg_nodes : option (list RawNode);
  rg_links : option (list RawLink)
}.

Record Node := mkNode {
  n_id : string;
  n_type : string;
  n_degree : Z
}.

Record Link := mkLink {
  l_source : string;
  l_target : string;
  l_weight : Z;
  l_type : string
}.

Record Graph := mkGraph {
  nodes : list Node;
  links : list Link
}.

Inductive Role := sponsor | actor | victim.

Definition Role_eqb (a b : Role) : bool :=
  match a, b with
  | sponsor, sponsor | actor, actor | victim, victim => true
  | _, _ => false
  end.

(** A [Set] of roles. *)
Definition roles_has (s : list Role) (r : Role) : bool := existsb (Role_eqb r) s.
Definition roles_add (s : list Role) (r : Role) : list Role :=
  if roles_has s r then s else s ++ [r].

Record LinkRole := mkLinkRole {
  link : Link;
  sourceRole : Role;
  targetRole : Role
}.

(* ================================================================= *)
(** ** normalizeGeo *)

Module Normalize.
Import Js.

(** First pass: links with string ids, default weight and type. *)
Definition canonLink (l : RawLink) : Link :=
  {| l_source := endpointId (rl_source l);
     l_target := endpointId (rl_target l);
     l_weight := nullish (rl_weight l) 1%Z;
     l_type := strOr (rl_type l) "" |}.

Definition canonLinks (raw : RawGraph) : list Link :=
  map canonLink (nullish (rg_links raw) []).

Definition allNodeIds (ls : list Link) : list string :=
  fold_left (fun s l => set_add (set_add s (l_source l)) (l_target l)) ls [].

(** The node synthesized for an id that only links mention. *)
Definition healed (i : string) : RawNode :=
  {| rn_id := i; rn_type := Some "actor"; rn_degree := Some 0%Z |}.

Definition baseNodes (raw : RawGraph) : JsMap RawNode :=
  fold_left (fun m n => map_set m (rn_id n) n) (nullish (rg_nodes raw) []) [].

Definition heal (m : JsMap RawNode) (ids : list string) : JsMap RawNode :=
  fold_left (fun m i => if map_has m i then m else map_set m i (healed i)) ids m.

Definition nodesById (raw : RawGraph) : JsMap RawNode :=
  heal (baseNodes raw) (allNodeIds (canonLinks raw)).

Definition classify (l : Link) : LinkRole :=
  let t := toLowerCase (l_type l) in
  {| link := l;
     sourceRole := if includes t "sponsor_to" then sponsor else actor;
     targetRole := if includes t "_to_victim" || includes t "to_victim"
                   then victim else actor |}.

Definition linkRoles (ls : list Link) : list LinkRole := map classify ls.

Definition addRole (m : JsMap (list Role)) (i : string) (r : Role)
  : JsMap (list Role) :=
  map_set m i (roles_add (nullish (map_get m i) []) r).

Definition nodeRoles (lrs : list LinkRole) : JsMap (list Role) :=
  fold_left
    (fun m lr =>
       addRole (addRole m (l_source (link lr)) (sourceRole lr))
               (l_target (link lr)) (targetRole lr))
    lrs [].

Definition needsSplit (nr : JsMap (list Role)) : list string :=
  fold_left
    (fun s e => if roles_has (snd e) sponsor && roles_has (snd e) victim
                then set_add s (fst e) else s)
    nr [].

Definition sponsorId (i : string) : string := String.append i " [S]".
Definition victimId (i : string) : string := String.append i " [T]".

Definition getNodeId (ns : list string) (originalId : string) (role : Role)
  : string :=
  if negb (set_has ns originalId) then originalId
  else match role with
       | sponsor => sponsorId originalId
       | victim => victimId originalId
       | actor => sponsorId originalId
       end.

Definition resolveType (roles : option (list Role)) (t : option string)
  : string :=
  let nodeType := strOr t "actor" in
  match roles with
  | Some rs => if roles_has rs sponsor then "sponsor"
               else if roles_has rs victim then "victim"
               else nodeType
  | None => nodeType
  end.

Definition newNodes (byId : JsMap RawNode) (nr : JsMap (list Role))
  (ns : list string) : list Node :=
  flat_map
    (fun e =>
       let nodeId := fst e in
       if set_has ns nodeId
       then [ mkNode (sponsorId nodeId) "sponsor" 0;
              mkNode (victimId nodeId) "victim" 0 ]
       else [ mkNode nodeId (resolveType (map_get nr nodeId) (rn_type (snd e))) 0 ])
    byId.

Definition rewire (ns : list string) (lr : LinkRole) : Link :=
  {| l_source := getNodeId ns (l_source (link lr)) (sourceRole lr);
     l_target := getNodeId ns (l_target (link lr)) (targetRole lr);
     l_weight := l_weight (link lr);
     l_type := l_type (link lr) |}.

Definition newLinks (ns : list string) (lrs : list LinkRole) : list Link :=
  map (rewire ns) lrs.

Definition newNodeIds (nn : list Node) : list string := set_of (map n_id nn).

Definition invalidLinks (ids : list string) (nl : list Link) : list Link :=
  filter (fun l => negb (set_has ids (l_source l)) || negb (set_has ids (l_target l))) nl.

Definition validLinks (ids : list string) (nl : list Link) : list Link :=
  filter (fun l => set_has ids (l_source l) && set_has ids (l_target l)) nl.

Definition bump (deg : JsMap Z) (i : string) : JsMap Z :=
  map_set deg i (numOr (map_get deg i) 0 + 1)%Z.

Definition degrees (nn : list Node) (nl : list Link) : JsMap Z :=
  fold_left (fun deg l => bump (bump deg (l_source l)) (l_target l)) nl
    (map_of (map (fun n => (n_id n, 0%Z)) nn)).

Definition setDegrees (deg : JsMap Z) (nn : list Node) : list Node :=
  map (fun n => mkNode (n_id n) (n_type n) (numOr (map_get deg (n_id n)) 0)) nn.

(** The intermediate values of one run, named as in the source. *)
Definition links_of (raw : RawGraph) := canonLinks raw.
Definition linkRoles_of (raw : RawGraph) := linkRoles (links_of raw).
Definition nodeRoles_of (raw : RawGraph) := nodeRoles (linkRoles_of raw).
Definition needsSplit_of (raw : RawGraph) := needsSplit (nodeRoles_of raw).
Definition newNodes_of (raw : RawGraph) :=
  newNodes (nodesById raw) (nodeRoles_of raw) (needsSplit_of raw).
Definition newLinks_of (raw : RawGraph) :=
  newLinks (needsSplit_of raw) (linkRoles_of raw).
Definition newNodeIds_of (raw : RawGraph) := newNodeIds (newNodes_of raw).
Definition invalidLinks_of (raw : RawGraph) :=
  invalidLinks (newNodeIds_of raw) (newLinks_of raw).

Definition normalizeGeo (networkData : RawGraph) : Graph :=
  let nn := newNodes_of networkData in
  let nl := newLinks_of networkData in
  let ids := newNodeIds nn in
  match invalidLinks ids nl with
  | _ :: _ => {| nodes := nn; links := validLinks ids nl |}
  | [] => {| nodes := setDegrees (degrees nn nl) nn; links := nl |}
  end.

End Normalize.

(* ================================================================= *)
(** ** The loader callback *)

Module Loader.
Import Js Normalize.

(** A normalized graph read back through the raw accessors. *)
Definition asRawNode (n : Node) : RawNode :=
  {| rn_id := n_id n; rn_type := Some (n_type n); rn_degree := Some (n_degree n) |}.

Definition asRawLink (l : Link) : RawLink :=
  {| rl_source := PlainId (l_source l); rl_target := PlainId (l_target l);
     rl_weight := Some (l_weight l); rl_type := Some (l_type l) |}.

Definition asRaw (g : Graph) : RawGraph :=
  {| rg_nodes := Some (map asRawNode (nodes g));
     rg_links := Some (map asRawLink (links g)) |}.

(** "Ensure minimal shape". *)
Definition safe (normalized : RawGraph) : Graph :=
  {| nodes := map (fun n => mkNode (rn_id n) (strOr (rn_type n) "actor")
                               (nullish (rn_degree n) 0%Z))
                  (nullish (rg_nodes normalized) []);
     links := map canonLink (nullish (rg_links normalized) []) |}.

Definition invalidStructure : string := "Invalid network data structure".

(** The [.then(raw => ...)] step of the data-loading effect: [inl] is the
    thrown error's message, [inr] the graph handed to [setData].  A falsy
    [raw] is [None]. *)
Definition onLoaded (networkType : string) (raw : option RawGraph)
  : string + Graph :=
  match raw with
  | None => inl invalidStructure
  | Some r =>
      match rg_nodes r, rg_links r with
      | None, None => inl invalidStructure
      | _, _ =>
          let normalized :=
            if String.eqb networkType "geo" then asRaw (normalizeGeo r) else r in
          inr (safe normalized)
      end
  end.

End Loader.

(* ================================================================= *)
(** ** analyzeQuery *)

Module Query.
Import Js.

(** The [data] prop: nodes of the loaded graph, and links whose endpoints
    the layout may have replaced by node objects. *)
Record QueryData := mkQueryData {
  d_nodes : list Node;
  d_links : list RawLink
}.

Record SponsorRow := mkSponsorRow {
  r_actor : string;
  r_sponsorCount : Z;
  r_sponsors : list string;
  r_degree : Z
}.

Record NameCount := mkNameCount {
  nc_name : string;
  nc_count : Z
}.

(** What [countryVariations[k] || country] can evaluate to: a string, or
    one of the two members that a lower-case key inherits from
    Object.prototype. *)
Inductive SponsorName :=
| Named (s : string)
| ObjectConstructor
| ObjectPrototype.

Inductive Result :=
| MultipleSponsors (count : Z) (results : list SponsorRow)
| CountryTargets (sponsorName : SponsorName) (results : list NameCount)
| MostTargeted (results : list NameCount)
| MostActive (category : string) (results : list NameCount)
| Unknown (message : string).

(** The [type] field of a result. *)
Definition resultType (r : Result) : string :=
  match r with
  | MultipleSponsors _ _ => "multiple_sponsors"
  | CountryTargets _ _ => "country_targets"
  | MostTargeted _ => "most_targeted"
  | MostActive _ _ => "most_active"
  | Unknown _ => "unknown"
  end.

(** The double-quote character. *)
Definition dq : string := String (ascii_of_nat 34) EmptyString.

Definition quoted (s : string) : string := String.append dq (String.append s dq).

Definition guidance : string :=
  String.concat EmptyString
    [ "Query not recognized. Try: ";
      quoted "which actors have multiple sponsors?"; ", ";
      quoted "what does China target most?"; ", ";
      quoted "most targeted countries"; ", or ";
      quoted "most active sponsors" ].

(** *** The two regular expressions *)

(** A lower-case literal character of the pattern under the [i] flag. *)
Definition eqCi (p c : ascii) : bool := Ascii.eqb (toLowerCase_char c) p.

Fixpoint prefixCi (p s : string) : bool :=
  match p, s with
  | EmptyString, _ => true
  | String a p', String c s' => eqCi a c && prefixCi p' s'
  | String _ _, EmptyString => false
  end.

Fixpoint drop (n : nat) (s : string) : string :=
  match n, s with
  | O, _ => s
  | S n', String _ s' => drop n' s'
  | S _, EmptyString => EmptyString
  end.

(** [([\w\s]+) target] anchored at the head of [s], greedy: the longest
    non-empty run of class characters that is followed by " target". *)
Fixpoint captureRun (s : string) : option string :=
  match s with
  | EmptyString => None
  | String c s' =>
      if isWord c || isSpace c then
        match captureRun s' with
        | Some cap => Some (String c cap)
        | None => if prefixCi " target" s' then Some (String c EmptyString)
                  else None
        end
      else None
  end.

Definition matchWhatAt (s : string) : option string :=
  if prefixCi "what does " s then captureRun (drop 10 s) else None.

(** [q.match(/what does ([\w\s]+) target/i)]: group 1 of the leftmost match. *)
Fixpoint matchWhat (s : string) : option string :=
  match matchWhatAt s with
  | Some cap => Some cap
  | None => match s with
            | EmptyString => None
            | String _ s' => matchWhat s'
            end
  end.

Definition countryTokens : list string := ["china"; "russia"; "iran"; "korea"].

Definition matchCountryAt (s : string) : option string :=
  match find (fun t => prefixCi t s) countryTokens with
  | Some t => Some (String.substring 0 (String.length t) s)
  | None => None
  end.

(** [q.match(/(china|russia|iran|korea)/i)]: group 1 of the leftmost match. *)
Fixpoint matchCountry (s : string) : option string :=
  match matchCountryAt s with
  | Some cap => Some cap
  | None => match s with
            | EmptyString => None
            | String _ s' => matchCountry s'
            end
  end.

Definition countryMatch (q : string) : option string :=
  match matchWhat q with
  | Some cap => Some cap
  | None => matchCountry q
  end.

(** [countryVariations[k]]; every value found is truthy. *)
Definition countryVariations (k : string) : option SponsorName :=
  if String.eqb k "china" then Some (Named "China")
  else if String.eqb k "russia" then Some (Named "Russian Federation")
  else if String.eqb k "iran" then Some (Named "Iran (Islamic Republic of)")
  else if String.eqb k "north korea"
       then Some (Named "Korea (Democratic People's Republic of)")
  else if String.eqb k "constructor" then Some ObjectConstructor
  else if String.eqb k "__proto__" then Some ObjectPrototype
  else None.

(** *** Aggregation helpers *)

(** [obj[k] = (obj[k] || 0) + w] *)
Definition tally (obj : JsMap Z) (k : string) (w : Z) : JsMap Z :=
  map_set obj k (numOr (map_get obj k) 0 + w)%Z.

(** [Object.entries(obj).sort((a, b) => b[1] - a[1]).slice(0, n).map(...)] *)
Definition top (n : nat) (obj : JsMap Z) : list NameCount :=
  map (fun e => mkNameCount (fst e) (snd e)) (firstn n (sortDesc snd obj)).

(** *** multiple_sponsors *)

Definition sponsorEdges (data : QueryData) (a : Node) : list RawLink :=
  filter (fun l =>
            String.eqb (endpointId (rl_target l)) (n_id a)
            && includes (toLowerCase (strOr (rl_type l) "")) "sponsor_to_actor")
         (d_links data).

Definition uniqueSponsors (data : QueryData) (a : Node) : list string :=
  set_of (map (fun e => endpointId (rl_source e)) (sponsorEdges data a)).

Definition actorNodes (data : QueryData) : list Node :=
  filter (fun n => String.eqb (n_type n) "actor") (d_nodes data).

Definition actorsWithMultipleSponsors (data : QueryData) : list SponsorRow :=
  flat_map
    (fun a =>
       let us := uniqueSponsors data a in
       if (1 <? List.length us)%nat
       then [ mkSponsorRow (n_id a) (Z.of_nat (List.length us)) us (n_degree a) ]
       else [])
    (actorNodes data).

Definition multipleSponsors (data : QueryData) : Result :=
  let rows := actorsWithMultipleSponsors data in
  MultipleSponsors (Z.of_nat (List.length rows)) (sortDesc r_sponsorCount rows).

(** *** country_targets *)

Definition countryTargets (data : QueryData) (cap : string) : Result :=
  let country := trim cap in
  let sponsorName :=
    match countryVariations (toLowerCase country) with
    | Some v => v
    | None => Named country
    end in
  let targets :=
    fold_left
      (fun targets l =>
         let sourceId := endpointId (rl_source l) in
         let targetId := endpointId (rl_target l) in
         if match sponsorName with
            | Named s => String.eqb sourceId s
            | _ => false
            end
            || (negb (String.eqb sourceId "")
                && includes (toLowerCase sourceId) (toLowerCase country))
         then tally targets targetId (numOr (rl_weight l) 1)
         else targets)
      (d_links data) [] in
  CountryTargets sponsorName (top 10 targets).

(** *** most_targeted *)

Definition mostTargeted (data : QueryData) : Result :=
  let targetCounts :=
    fold_left
      (fun targetCounts l =>
         let targetId := endpointId (rl_target l) in
         let linkType := toLowerCase (strOr (rl_type l) "") in
         if includes linkType "victim" || includes linkType "target"
         then tally targetCounts targetId (numOr (rl_weight l) 1)
         else targetCounts)
      (d_links data) [] in
  MostTargeted (top 15 targetCounts).

(** *** most_active *)

Definition mostActive (data : QueryData) (q : string) : Result :=
  let type := if includes q "sponsor" then "sponsor" else "actor" in
  let nodeCounts :=
    fold_left
      (fun nodeCounts l =>
         let sourceId := endpointId (rl_source l) in
         match find (fun n => String.eqb (n_id n) sourceId) (d_nodes data) with
         | Some sourceNode =>
             if String.eqb (n_type sourceNode) type
             then tally nodeCounts sourceId (numOr (rl_weight l) 1)
             else nodeCounts
         | None => nodeCounts
         end)
      (d_links data) [] in
  MostActive type (top 15 nodeCounts).

(** *** The four triggers, on the lower-cased question *)

Definition isMultipleSponsors (q : string) : bool :=
  includes q "multiple" && (includes q "sponsor" || includes q "backed").

Definition isCountryTargets (q : string) : bool :=
  match countryMatch q with
  | Some _ => includes q "target"
  | None => false
  end.

Definition isMostTargeted (q : string) : bool := includes q "most targeted".

Definition isMostActive (q : string) : bool :=
  includes q "most active" && (includes q "sponsor" || includes q "actor").

(** [None] is the [null] returned while no data is loaded. *)
Definition analyzeQuery (data : option QueryData) (queryText : string)
  : option Result :=
  match data with
  | None => None
  | Some data =>
      let q := toLowerCase queryText in
      if includes q "multiple" && (includes q "sponsor" || includes q "backed")
      then Some (multipleSponsors data)
      else
        let afterCountry :=
          if includes q "most targeted" then mostTargeted data
          else if includes q "most active"
                  && (includes q "sponsor" || includes q "actor")
          then mostActive data q
          else Unknown guidance in
        match countryMatch q with
        | Some cap =>
            if includes q "target" then Some (countryTargets data cap)
            else Some afterCountry
        | None => Some afterCountry
        end
  end.

End Query.

(* ================================================================= *)
(** ** Facts about the JavaScript containers *)

Module JsFacts.
Import Js.

Lemma set_has_In (s : list string) (x : string) :
  set_has s x = true <-> In x s.
Proof.
  unfold set_has. rewrite existsb_exists. split.
  - intros [y [Hy He]]. apply String.eqb_eq in He. now subst.
  - intros H. exists x. split; [assumption | apply String.eqb_refl].
Qed.

Lemma set_has_false (s : list string) (x : string) :
  set_has s x = false <-> ~ In x s.
Proof.
  rewrite <- set_has_In. destruct (set_has s x); split; congruence.
Qed.

Lemma set_add_In (s : list string) (x y : string) :
  In y (set_add s x) <-> In y s \/ y = x.
Proof.
  unfold set_add. destruct (set_has s x) eqn:E.
  - apply set_has_In in E. split; [auto | intros [H | ->]; assumption].
  - rewrite in_app_iff. simpl. intuition.
Qed.

Lemma set_add_NoDup (s : list string) (x : string) :
  NoDup s -> NoDup (set_add s x).
Proof.
  intros H. unfold set_add. destruct (set_has s x) eqn:E; [assumption|].
  apply set_has_false in E.
  apply NoDup_app; [assumption | constructor; [intros [] | constructor] |].
  intros a Ha [<- | []]. contradiction.
Qed.

Lemma fold_set_add_In (l a : list string) (y : string) :
  In y (fold_left set_add l a) <-> In y a \/ In y l.
Proof.
  revert a. induction l as [|x l IH]; intros a; simpl.
  - tauto.
  - rewrite IH, set_add_In. intuition.
Qed.

Lemma fold_set_add_NoDup (l a : list string) :
  NoDup a -> NoDup (fold_left set_add l a).
Proof.
  revert a. induction l as [|x l IH]; intros a Ha; simpl; [assumption|].
  apply IH, set_add_NoDup, Ha.
Qed.

Lemma set_of_In (l : list string) (y : string) : In y (set_of l) <-> In y l.
Proof. unfold set_of. rewrite fold_set_add_In. simpl. tauto. Qed.

Lemma set_of_NoDup (l : list string) : NoDup (set_of l).
Proof. apply fold_set_add_NoDup. constructor. Qed.

Section MapFacts.
Variable V : Type.
Implicit Types (m : JsMap V) (k : string) (v : V).

Lemma map_get_set m k v k' :
  map_get (map_set m k v) k' = if String.eqb k k' then Some v else map_get m k'.
Proof.
  induction m as [|[k0 v0] m IH]; simpl.
  - reflexivity.
  - destruct (String.eqb_spec k0 k) as [->|Hn]; simpl.
    + destruct (String.eqb k k'); reflexivity.
    + destruct (String.eqb_spec k0 k') as [->|Hn'].
      * destruct (String.eqb_spec k k'); [congruence | reflexivity].
      * apply IH.
Qed.

Lemma map_has_In m k : map_has m k = true <-> In k (map fst m).
Proof.
  unfold map_has. induction m as [|[k0 v0] m IH]; simpl.
  - split; [discriminate | tauto].
  - destruct (String.eqb_spec k0 k) as [->|Hn].
    + split; auto.
    + rewrite IH. split; [auto | intros [H|H]; [contradiction | assumption]].
Qed.

Lemma map_has_false m k : map_has m k = false <-> ~ In k (map fst m).
Proof.
  rewrite <- map_has_In. destruct (map_has m k); split; congruence.
Qed.

Lemma map_keys_set m k v :
  map fst (map_set m k v)
  = if map_has m k then map fst m else map fst m ++ [k].
Proof.
  unfold map_has. induction m as [|[k0 v0] m IH]; simpl.
  - reflexivity.
  - destruct (String.eqb_spec k0 k) as [->|Hn]; simpl.
    + reflexivity.
    + rewrite IH. destruct (map_get m k); reflexivity.
Qed.

Lemma map_set_fresh m k v :
  map_has m k = false -> map_set m k v = m ++ [(k, v)].
Proof.
  unfold map_has. induction m as [|[k0 v0] m IH]; simpl; intros H.
  - reflexivity.
  - destruct (String.eqb_spec k0 k) as [->|Hn]; [discriminate|].
    now rewrite IH.
Qed.

Lemma map_get_In m k v : map_get m k = Some v -> In (k, v) m.
Proof.
  induction m as [|[k0 v0] m IH]; simpl; [discriminate|].
  destruct (String.eqb_spec k0 k) as [->|Hn].
  - intros [= ->]. now left.
  - intros H. right. auto.
Qed.

Lemma map_get_NoDup m k v :
  NoDup (map fst m) -> In (k, v) m -> map_get m k = Some v.
Proof.
  induction m as [|[k0 v0] m IH]; simpl; [tauto|].
  intros Hnd [H|H].
  - injection H as -> ->. now rewrite String.eqb_refl.
  - inversion Hnd; subst.
    destruct (String.eqb_spec k0 k) as [->|Hn].
    + exfalso. apply H2. apply (in_map fst) in H. exact H.
    + auto.
Qed.

Lemma map_set_NoDup m k v :
  NoDup (map fst m) -> NoDup (map fst (map_set m k v)).
Proof.
  intros H. rewrite map_keys_set. destruct (map_has m k) eqn:E; [assumption|].
  apply map_has_false in E.
  apply NoDup_app; [assumption | constructor; [intros [] | constructor] |].
  intros a Ha [<- | []]. contradiction.
Qed.

Lemma map_get_None m k : map_get m k = None <-> ~ In k (map fst m).
Proof.
  rewrite <- map_has_false. unfold map_has.
  destruct (map_get m k); split; congruence.
Qed.
End MapFacts.

End JsFacts.

(* ================================================================= *)
(** ** Facts about normalizeGeo *)

Module NormalizeFacts.
Import Js JsFacts Normalize.

(** [i] is an endpoint of some link. *)
Definition mentions (ls : list Link) (i : string) : Prop :=
  exists l, In l ls /\ (l_source l = i \/ l_target l = i).

(** [i] plays role [r] at an endpoint of some classified link. *)
Definition roleAt (lrs : list LinkRole) (i : string) (r : Role) : Prop :=
  exists lr, In lr lrs /\
    ((l_source (link lr) = i /\ sourceRole lr = r)
     \/ (l_target (link lr) = i /\ targetRole lr = r)).

(** The aggregated role set of a node id ([nodeRoles.get(i)], empty when
    the id has no entry). *)
Definition rolesOf (raw : RawGraph) (i : string) : list Role :=
  nullish (map_get (nodeRoles_of raw) i) [].

Definition isSplit (raw : RawGraph) (i : string) : bool :=
  set_has (needsSplit_of raw) i.

(** The role set is {sponsor, victim} and nothing else. *)
Definition exactlySponsorVictim (rs : list Role) : bool :=
  roles_has rs sponsor && roles_has rs victim && negb (roles_has rs actor).

Definition nodeIds (g : Graph) : list string := map n_id (nodes g).

(** Endpoint occurrences of [i] in a list of links. *)
Definition occurrences (ls : list Link) (i : string) : Z :=
  Z.of_nat (List.length (filter (fun l => String.eqb (l_source l) i) ls)
            + List.length (filter (fun l => String.eqb (l_target l) i) ls)).

Definition sumDegrees (ns : list Node) : Z :=
  fold_right (fun n acc => (n_degree n + acc)%Z) 0%Z ns.

Definition isRoleType (t : string) : bool :=
  String.eqb t "actor" || String.eqb t "sponsor" || String.eqb t "victim".

(** *** Healing *)

Lemma fold_endpoints_In (ls : list Link) (a : list string) (i : string) :
  In i (fold_left (fun s l => set_add (set_add s (l_source l)) (l_target l)) ls a)
  <-> In i a \/ mentions ls i.
Proof.
  revert a. induction ls as [|l ls IH]; intros a; simpl.
  - split; [auto | intros [H | [l [[] _]]]; exact H].
  - rewrite IH, !set_add_In. unfold mentions. split.
    + intros [[[H | ->] | ->] | [l' [Hin Hl']]].
      * now left.
      * right. exists l. split; [now left | now left].
      * right. exists l. split; [now left | now right].
      * right. exists l'. split; [now right | exact Hl'].
    + intros [H | [l' [[<- | Hin] Hl']]].
      * tauto.
      * destruct Hl' as [<- | <-]; tauto.
      * right. exists l'. split; assumption.
Qed.

Lemma allNodeIds_In (ls : list Link) (i : string) :
  In i (allNodeIds ls) <-> mentions ls i.
Proof. unfold allNodeIds. rewrite fold_endpoints_In. simpl. tauto. Qed.

Lemma heal_keys (ids : list string) (m : JsMap RawNode) (i : string) :
  In i (map fst (heal m ids)) <-> In i (map fst m) \/ In i ids.
Proof.
  unfold heal. revert m. induction ids as [|x ids IH]; intros m; simpl.
  - tauto.
  - rewrite IH. destruct (map_has m x) eqn:E.
    + apply map_has_In in E. split; [tauto | intros [H | [<- | H]]; tauto].
    + rewrite map_keys_set, E, in_app_iff. simpl. intuition.
Qed.

Lemma heal_NoDup (ids : list string) (m : JsMap RawNode) :
  NoDup (map fst m) -> NoDup (map fst (heal m ids)).
Proof.
  unfold heal. revert m. induction ids as [|x ids IH]; intros m H; simpl.
  - exact H.
  - apply IH. destruct (map_has m x); [exact H | now apply map_set_NoDup].
Qed.

Lemma fold_map_set_NoDup (A V : Type) (f : A -> string) (g : A -> V)
  (l : list A) (m : JsMap V) :
  NoDup (map fst m) ->
  NoDup (map fst (fold_left (fun m a => map_set m (f a) (g a)) l m)).
Proof.
  revert m. induction l as [|a l IH]; intros m H; simpl; [exact H|].
  apply IH. now apply map_set_NoDup.
Qed.

Lemma nodesById_NoDup (raw : RawGraph) : NoDup (map fst (nodesById raw)).
Proof.
  unfold nodesById. apply heal_NoDup. unfold baseNodes.
  apply (fold_map_set_NoDup rn_id (fun n => n)). constructor.
Qed.

Lemma nodesById_mentions (raw : RawGraph) (i : string) :
  mentions (links_of raw) i -> In i (map fst (nodesById raw)).
Proof.
  intros H. unfold nodesById. apply heal_keys. right.
  now apply allNodeIds_In.
Qed.

(** *** The new node list *)

Lemma newNodes_ids (byId : JsMap RawNode) (nr : JsMap (list Role))
  (ns : list string) (i : string) :
  In i (map n_id (newNodes byId nr ns)) <->
  exists k, In k (map fst byId) /\
    (if set_has ns k then i = sponsorId k \/ i = victimId k else i = k).
Proof.
  unfold newNodes. induction byId as [|[k n] byId IH]; simpl.
  - split; [tauto | intros [k [[] _]]].
  - rewrite map_app, in_app_iff, IH. split.
    + intros [H | [k' [Hk' H]]].
      * exists k. split; [now left|].
        destruct (set_has ns k); simpl in H; intuition.
      * exists k'. split; [now right | exact H].
    + intros [k' [[<- | Hk'] H]].
      * left. destruct (set_has ns k); simpl; intuition.
      * right. eauto.
Qed.

Lemma getNodeId_In (byId : JsMap RawNode) (nr : JsMap (list Role))
  (ns : list string) (k : string) (r : Role) :
  In k (map fst byId) ->
  In (getNodeId ns k r) (map n_id (newNodes byId nr ns)).
Proof.
  intros Hk. apply newNodes_ids. exists k. split; [exact Hk|].
  unfold getNodeId. destruct (set_has ns k); simpl; [|reflexivity].
  destruct r; auto.
Qed.

Lemma newLinks_resolve (raw : RawGraph) (l : Link) :
  In l (newLinks_of raw) ->
  In (l_source l) (map n_id (newNodes_of raw))
  /\ In (l_target l) (map n_id (newNodes_of raw)).
Proof.
  unfold newLinks_of, newLinks, linkRoles_of, linkRoles.
  rewrite map_map, in_map_iff. intros [l0 [<- Hin]]. simpl.
  split; apply getNodeId_In, nodesById_mentions; exists l0; auto.
Qed.

Lemma filter_nil (A : Type) (f : A -> bool) (l : list A) :
  (forall x, In x l -> f x = false) -> filter f l = [].
Proof.
  induction l as [|x l IH]; simpl; intros H; [reflexivity|].
  rewrite (H x (or_introl eq_refl)). apply IH. auto.
Qed.

Lemma invalidLinks_of_nil (raw : RawGraph) : invalidLinks_of raw = [].
Proof.
  unfold invalidLinks_of, invalidLinks. apply filter_nil. intros l Hl.
  destruct (newLinks_resolve raw l Hl) as [Hs Ht].
  unfold newNodeIds_of, newNodeIds.
  apply set_of_In, set_has_In in Hs. apply set_of_In, set_has_In in Ht.
  now rewrite Hs, Ht.
Qed.

Lemma normalizeGeo_eq (raw : RawGraph) :
  normalizeGeo raw
  = {| nodes := setDegrees (degrees (newNodes_of raw) (newLinks_of raw))
                           (newNodes_of raw);
       links := newLinks_of raw |}.
Proof.
  unfold normalizeGeo.
  change (invalidLinks (newNodeIds (newNodes_of raw)) (newLinks_of raw))
    with (invalidLinks_of raw).
  now rewrite invalidLinks_of_nil.
Qed.

Lemma setDegrees_ids (deg : JsMap Z) (nn : list Node) :
  map n_id (setDegrees deg nn) = map n_id nn.
Proof. unfold setDegrees. rewrite map_map. reflexivity. Qed.

Lemma normalizeGeo_ids (raw : RawGraph) :
  nodeIds (normalizeGeo raw) = map n_id (newNodes_of raw).
Proof. rewrite normalizeGeo_eq. apply setDegrees_ids. Qed.

(** *** Role aggregation *)

Definition getRoles (m : JsMap (list Role)) (i : string) : list Role :=
  nullish (map_get m i) [].

Lemma Role_eqb_eq (a b : Role) : Role_eqb a b = true <-> a = b.
Proof. destruct a, b; simpl; split; congruence. Qed.

Lemma roles_has_In (rs : list Role) (r : Role) :
  roles_has rs r = true <-> In r rs.
Proof.
  unfold roles_has. rewrite existsb_exists. split.
  - intros [y [Hy He]]. apply Role_eqb_eq in He. now subst.
  - intros H. exists r. split; [assumption | now apply Role_eqb_eq].
Qed.

Lemma roles_add_has (rs : list Role) (r r' : Role) :
  roles_has (roles_add rs r) r' = roles_has rs r' || Role_eqb r' r.
Proof.
  unfold roles_add. destruct (roles_has rs r) eqn:E.
  - destruct (Role_eqb r' r) eqn:E'.
    + apply Role_eqb_eq in E'. subst. rewrite E. reflexivity.
    + now rewrite orb_false_r.
  - unfold roles_has. rewrite existsb_app. simpl. now rewrite orb_false_r.
Qed.

Lemma addRole_has (m : JsMap (list Role)) (i j : string) (r r' : Role) :
  roles_has (getRoles (addRole m i r) j) r'
  = roles_has (getRoles m j) r' || (String.eqb i j && Role_eqb r' r).
Proof.
  unfold getRoles, addRole. rewrite map_get_set.
  destruct (String.eqb_spec i j) as [->|Hn]; simpl.
  - apply roles_add_has.
  - now rewrite orb_false_r.
Qed.

Definition roleStep (m : JsMap (list Role)) (lr : LinkRole) : JsMap (list Role) :=
  addRole (addRole m (l_source (link lr)) (sourceRole lr))
          (l_target (link lr)) (targetRole lr).

Lemma fold_roleStep_has (lrs : list LinkRole) (m : JsMap (list Role))
  (i : string) (r : Role) :
  roles_has (getRoles (fold_left roleStep lrs m) i) r = true
  <-> roles_has (getRoles m i) r = true \/ roleAt lrs i r.
Proof.
  revert m. induction lrs as [|lr lrs IH]; intros m; simpl.
  - split; [auto | intros [H | [lr [[] _]]]; exact H].
  - rewrite IH. unfold roleStep. rewrite !addRole_has, !orb_true_iff,
      !andb_true_iff, !String.eqb_eq, !Role_eqb_eq.
    unfold roleAt. split.
    + intros [[[H | [Hs Hr]] | [Ht Hr]] | [lr' [Hin H]]].
      * now left.
      * right. exists lr. split; [now left | left; split; congruence].
      * right. exists lr. split; [now left | right; split; congruence].
      * right. exists lr'. split; [now right | exact H].
    + intros [H | [lr' [[<- | Hin] H]]].
      * tauto.
      * destruct H as [[Hs Hr] | [Ht Hr]]; left; [left; right | right]; split; congruence.
      * right. exists lr'. split; assumption.
Qed.

Lemma nodeRoles_has (lrs : list LinkRole) (i : string) (r : Role) :
  roles_has (getRoles (nodeRoles lrs) i) r = true <-> roleAt lrs i r.
Proof.
  unfold nodeRoles. fold roleStep.
  change (fold_left (fun m lr => roleStep m lr) lrs []) with (fold_left roleStep lrs []).
  rewrite fold_roleStep_has. simpl. split; [intros [H|H]; [discriminate | exact H] | auto].
Qed.

Lemma fold_roleStep_NoDup (lrs : list LinkRole) (m : JsMap (list Role)) :
  NoDup (map fst m) -> NoDup (map fst (fold_left roleStep lrs m)).
Proof.
  revert m. induction lrs as [|lr lrs IH]; intros m Hm; simpl; [exact Hm|].
  apply IH. unfold roleStep, addRole. now apply map_set_NoDup, map_set_NoDup.
Qed.

Lemma nodeRoles_NoDup (lrs : list LinkRole) : NoDup (map fst (nodeRoles lrs)).
Proof. apply (fold_roleStep_NoDup lrs []). constructor. Qed.

Lemma fold_needsSplit_In (nr : JsMap (list Role)) (a : list string) (i : string) :
  In i (fold_left
          (fun s e => if roles_has (snd e) sponsor && roles_has (snd e) victim
                      then set_add s (fst e) else s) nr a)
  <-> In i a \/ exists rs, In (i, rs) nr
                           /\ roles_has rs sponsor && roles_has rs victim = true.
Proof.
  revert a. induction nr as [|[k rs] nr IH]; intros a; simpl.
  - split; [auto | intros [H | [rs [[] _]]]; exact H].
  - rewrite IH. destruct (roles_has rs sponsor && roles_has rs victim) eqn:E.
    + rewrite set_add_In. split.
      * intros [[H | ->] | [rs' [Hin H]]].
        -- now left.
        -- right. exists rs. split; [now left | exact E].
        -- right. exists rs'. split; [now right | exact H].
      * intros [H | [rs' [[Heq | Hin] H]]].
        -- tauto.
        -- injection Heq as -> ->. tauto.
        -- right. exists rs'. split; assumption.
    + split.
      * intros [H | [rs' [Hin H]]]; [now left|].
        right. exists rs'. split; [now right | exact H].
      * intros [H | [rs' [[Heq | Hin] H]]].
        -- tauto.
        -- injection Heq as -> ->. congruence.
        -- right. exists rs'. split; assumption.
Qed.

Lemma needsSplit_has (nr : JsMap (list Role)) (i : string) :
  NoDup (map fst nr) ->
  set_has (needsSplit nr) i
  = roles_has (getRoles nr i) sponsor && roles_has (getRoles nr i) victim.
Proof.
  intros Hnd. apply eq_true_iff_eq. rewrite set_has_In. unfold needsSplit.
  rewrite fold_needsSplit_In. unfold getRoles. split.
  - intros [[] | [rs [Hin H]]].
    now rewrite (map_get_NoDup nr i rs Hnd Hin).
  - intros H. right. destruct (map_get nr i) as [rs|] eqn:E; [|discriminate].
    exists rs. split; [now apply map_get_In | exact H].
Qed.

Lemma isSplit_roles (raw : RawGraph) (i : string) :
  isSplit raw i
  = roles_has (rolesOf raw i) sponsor && roles_has (rolesOf raw i) victim.
Proof. apply needsSplit_has, nodeRoles_NoDup. Qed.

Lemma rolesOf_has (raw : RawGraph) (i : string) (r : Role) :
  roles_has (rolesOf raw i) r = true <-> roleAt (linkRoles_of raw) i r.
Proof. apply nodeRoles_has. Qed.

(** *** Degrees *)

Definition degOf (deg : JsMap Z) (i : string) : Z := numOr (map_get deg i) 0.

Definition hit (a b : string) : Z := if String.eqb a b then 1%Z else 0%Z.

Lemma numOr_Some_0 (v : Z) : numOr (Some v) 0 = v.
Proof. simpl. destruct (Z.eqb_spec v 0); congruence. Qed.

Lemma degOf_bump (deg : JsMap Z) (j i : string) :
  degOf (bump deg j) i = (degOf deg i + hit j i)%Z.
Proof.
  unfold degOf, bump, hit. rewrite map_get_set.
  destruct (String.eqb_spec j i) as [->|Hn].
  - apply numOr_Some_0.
  - lia.
Qed.

Lemma occurrences_nil (i : string) : occurrences [] i = 0%Z.
Proof. reflexivity. Qed.

Lemma occurrences_cons (l : Link) (ls : list Link) (i : string) :
  occurrences (l :: ls) i
  = (hit (l_source l) i + hit (l_target l) i + occurrences ls i)%Z.
Proof.
  unfold occurrences, hit. simpl.
  destruct (String.eqb (l_source l) i), (String.eqb (l_target l) i);
    simpl List.length; lia.
Qed.

Lemma fold_bump_degOf (ls : list Link) (deg : JsMap Z) (i : string) :
  degOf (fold_left (fun deg l => bump (bump deg (l_source l)) (l_target l)) ls deg) i
  = (degOf deg i + occurrences ls i)%Z.
Proof.
  revert deg. induction ls as [|l ls IH]; intros deg.
  - simpl. rewrite occurrences_nil. lia.
  - simpl fold_left. rewrite IH, !degOf_bump, occurrences_cons. lia.
Qed.

Lemma map_set_entries (V : Type) (m : JsMap V) (k : string) (v : V)
  (e : string * V) :
  In e (map_set m k v) -> In e m \/ e = (k, v).
Proof.
  induction m as [|[k0 v0] m IH]; simpl.
  - intros [<- | []]. now right.
  - destruct (String.eqb_spec k0 k) as [->|Hn]; simpl.
    + intros [<- | H]; auto.
    + intros [<- | H]; auto. destruct (IH H); auto.
Qed.

Lemma map_of_entries (V : Type) (l : list (string * V)) (e : string * V) :
  In e (map_of l) -> In e l.
Proof.
  unfold map_of.
  assert (G : forall m, In e (fold_left (fun m kv => map_set m (fst kv) (snd kv)) l m)
                        -> In e m \/ In e l).
  { induction l as [|[k v] l IH]; intros m; simpl; [auto|].
    intros H. destruct (IH _ H) as [H1 | H1]; [|auto].
    destruct (map_set_entries _ _ _ _ H1) as [H2 | ->]; auto. }
  intros H. destruct (G [] H) as [[] | H']. exact H'.
Qed.

Lemma degOf_init (nn : list Node) (i : string) :
  degOf (map_of (map (fun n => (n_id n, 0%Z)) nn)) i = 0%Z.
Proof.
  unfold degOf.
  destruct (map_get (map_of (map (fun n => (n_id n, 0%Z)) nn)) i) as [v|] eqn:E;
    [|reflexivity].
  apply map_get_In, map_of_entries, in_map_iff in E.
  destruct E as [n [[= _ <-] _]]. reflexivity.
Qed.

Lemma degrees_degOf (nn : list Node) (nl : list Link) (i : string) :
  degOf (degrees nn nl) i = occurrences nl i.
Proof. unfold degrees. rewrite fold_bump_degOf, degOf_init. lia. Qed.

Lemma setDegrees_eq (nn : list Node) (nl : list Link) :
  setDegrees (degrees nn nl) nn
  = map (fun n => mkNode (n_id n) (n_type n) (occurrences nl (n_id n))) nn.
Proof.
  unfold setDegrees. apply map_ext. intros n.
  f_equal. apply degrees_degOf.
Qed.

(** Summing over a duplicate-free id list that covers every endpoint. *)
Definition sumOver (ids : list string) (f : string -> Z) : Z :=
  fold_right (fun i acc => (f i + acc)%Z) 0%Z ids.

Lemma sumOver_hit (ids : list string) (x : string) :
  NoDup ids -> In x ids -> sumOver ids (hit x) = 1%Z.
Proof.
  assert (Z0 : forall l, ~ In x l -> sumOver l (hit x) = 0%Z).
  { induction l as [|i l IH]; simpl; intros H; [reflexivity|].
    unfold hit at 1. destruct (String.eqb_spec x i) as [->|Hn].
    - exfalso. apply H. now left.
    - rewrite IH; [reflexivity | tauto]. }
  induction ids as [|i ids IH]; intros Hnd Hx; [destruct Hx|].
  simpl. destruct Hx as [Heq | Hin].
  - subst. inversion Hnd; subst. unfold hit at 1.
    rewrite String.eqb_refl, Z0; [reflexivity | assumption].
  - inversion Hnd; subst. unfold hit at 1.
    destruct (String.eqb_spec x i) as [->|Hn]; [contradiction|].
    rewrite IH; auto.
Qed.

Lemma sumOver_occurrences (ids : list string) (ls : list Link) :
  NoDup ids ->
  (forall l, In l ls -> In (l_source l) ids /\ In (l_target l) ids) ->
  sumOver ids (occurrences ls) = (2 * Z.of_nat (List.length ls))%Z.
Proof.
  intros Hnd. induction ls as [|l ls IH]; intros Hcl.
  - clear. induction ids as [|i ids IH]; simpl; [reflexivity|].
    rewrite IH. reflexivity.
  - assert (E : sumOver ids (occurrences (l :: ls))
                = (sumOver ids (hit (l_source l)) + sumOver ids (hit (l_target l))
                   + sumOver ids (occurrences ls))%Z).
    { clear. induction ids as [|i ids IH]; simpl; [reflexivity|].
      rewrite IH, occurrences_cons. lia. }
    rewrite E. destruct (Hcl l (or_introl eq_refl)) as [Hs Ht].
    rewrite !sumOver_hit, IH by (auto; intros; apply Hcl; now right).
    simpl List.length. lia.
Qed.

Lemma sumDegrees_occ (nn : list Node) (nl : list Link) :
  sumDegrees (map (fun n => mkNode (n_id n) (n_type n) (occurrences nl (n_id n))) nn)
  = sumOver (map n_id nn) (occurrences nl).
Proof.
  induction nn as [|n nn IH]; simpl; [reflexivity|]. now rewrite IH.
Qed.

(** *** Node types *)

Lemma heal_entries (ids : list string) (m : JsMap RawNode) (e : string * RawNode) :
  In e (heal m ids) -> In e m \/ snd e = healed (fst e).
Proof.
  unfold heal. revert m. induction ids as [|x ids IH]; intros m; simpl; [auto|].
  intros H. destruct (IH _ H) as [H1 | H1]; [|auto].
  destruct (map_has m x); [auto|].
  destruct (map_set_entries _ _ _ _ H1) as [H2 | ->]; auto.
Qed.

Lemma baseNodes_entries (raw : RawGraph) (e : string * RawNode) :
  In e (baseNodes raw) ->
  In (snd e) (nullish (rg_nodes raw) []) /\ rn_id (snd e) = fst e.
Proof.
  unfold baseNodes.
  assert (G : forall l m,
             In e (fold_left (fun m n => map_set m (rn_id n) n) l m) ->
             In e m \/ (In (snd e) l /\ rn_id (snd e) = fst e)).
  { induction l as [|n l IH]; intros m; simpl; [auto|].
    intros H. destruct (IH _ H) as [H1 | [H1 H2]]; [|auto].
    destruct (map_set_entries _ _ _ _ H1) as [H2 | ->]; auto. }
  intros H. destruct (G _ _ H) as [[] | H']. exact H'.
Qed.

Lemma nodesById_entries (raw : RawGraph) (e : string * RawNode) :
  In e (nodesById raw) ->
  (In (snd e) (nullish (rg_nodes raw) []) /\ rn_id (snd e) = fst e)
  \/ snd e = healed (fst e).
Proof.
  intros H. destruct (heal_entries _ _ _ H) as [H1 | H1]; [|auto].
  left. now apply baseNodes_entries.
Qed.

Lemma newNodes_In (byId : JsMap RawNode) (nr : JsMap (list Role))
  (ns : list string) (n : Node) :
  In n (newNodes byId nr ns) <->
  exists e, In e byId /\
    (if set_has ns (fst e)
     then n = mkNode (sponsorId (fst e)) "sponsor" 0
          \/ n = mkNode (victimId (fst e)) "victim" 0
     else n = mkNode (fst e) (resolveType (map_get nr (fst e)) (rn_type (snd e))) 0).
Proof.
  unfold newNodes. rewrite in_flat_map. split; intros [e [He H]]; exists e;
    (split; [exact He|]); destruct (set_has ns (fst e)); simpl in *; intuition.
Qed.

End NormalizeFacts.

(* ================================================================= *)
(** ** Properties of normalizeGeo *)

Module NormalizeSpec.
Import Js JsFacts Normalize NormalizeFacts.

(** *** Sample graphs *)

(** X sponsors A, is attacked by B, and also has a plain edge to C. *)
Definition threeRoles : RawGraph :=
  mkRawGraph (Some [])
    (Some [ mkRawLink (PlainId "X") (PlainId "A") None (Some "sponsor_to_actor");
            mkRawLink (PlainId "B") (PlainId "X") None (Some "actor_to_victim");
            mkRawLink (PlainId "X") (PlainId "C") None None ]).

(** X is split while another id already spells X's sponsor variant. *)
Definition collide : RawGraph :=
  mkRawGraph None
    (Some [ mkRawLink (PlainId "X") (PlainId "A") None (Some "sponsor_to_actor");
            mkRawLink (PlainId "B") (PlainId "X") None (Some "actor_to_victim");
            mkRawLink (PlainId "X [S]") (PlainId "C") None None ]).

(** A listed node with a foreign type and no edges. *)
Definition foreignType : RawGraph :=
  mkRawGraph (Some [ mkRawNode "n" (Some "malware") None ]) (Some []).

(** A plain chain sponsor -> actor -> victim. *)
Definition chain : RawGraph :=
  mkRawGraph (Some [ mkRawNode "S" (Some "sponsor") None ])
    (Some [ mkRawLink (PlainId "S") (NodeObj "A") (Some 2%Z) (Some "sponsor_to_actor");
            mkRawLink (PlainId "A") (PlainId "V") None (Some "actor_to_victim") ]).

Ltac nodup_strings :=
  repeat (constructor; [simpl; intuition discriminate|]); constructor.

(** Routing of an endpoint as section 4.3 words it. *)
Definition route (raw : RawGraph) (i : string) (perEdgeRole : Role) : string :=
  if isSplit raw i then
    match perEdgeRole with
    | sponsor => String.append i " [S]"
    | victim => String.append i " [T]"
    | actor => String.append i " [S]"
    end
  else i.

Lemma roleAt_mentions (raw : RawGraph) (i : string) (r : Role) :
  roleAt (linkRoles_of raw) i r -> mentions (links_of raw) i.
Proof.
  unfold linkRoles_of, linkRoles. intros [lr [Hin H]].
  apply in_map_iff in Hin. destruct Hin as [l [<- Hl]]. simpl in H.
  exists l. split; [exact Hl | tauto].
Qed.

Lemma isSplit_key (raw : RawGraph) (i : string) :
  isSplit raw i = true -> In i (map fst (nodesById raw)).
Proof.
  rewrite isSplit_roles, andb_true_iff, rolesOf_has. intros [H _].
  eapply nodesById_mentions, roleAt_mentions, H.
Qed.

(** C1 (as amended): a node id is split exactly when its aggregated role
    set contains both sponsor and victim, whatever else it contains; the
    role set collects the per-edge roles of every edge the id appears in;
    a split id yields both variant ids in the output, any other id with a
    node record keeps its own id; an id with a single role is never
    split. *)
Theorem split_iff_sponsor_and_victim (raw : RawGraph) (i : string) :
  isSplit raw i
  = roles_has (rolesOf raw i) sponsor && roles_has (rolesOf raw i) victim
  /\ (forall r, roles_has (rolesOf raw i) r = true
                <-> roleAt (linkRoles_of raw) i r)
  /\ (isSplit raw i = true ->
      In (sponsorId i) (nodeIds (normalizeGeo raw))
      /\ In (victimId i) (nodeIds (normalizeGeo raw)))
  /\ (isSplit raw i = false -> In i (map fst (nodesById raw)) ->
      In i (nodeIds (normalizeGeo raw)))
  /\ (forall r, rolesOf raw i = [r] -> isSplit raw i = false).
Proof.
  split; [apply isSplit_roles|].
  split; [intros r; apply rolesOf_has|].
  split; [|split].
  - intros H. rewrite normalizeGeo_ids. unfold newNodes_of.
    split; apply newNodes_ids; exists i; fold (isSplit raw i); rewrite H;
      (split; [now apply isSplit_key | auto]).
  - intros H Hk. rewrite normalizeGeo_ids. unfold newNodes_of.
    apply newNodes_ids. exists i. fold (isSplit raw i). rewrite H. auto.
  - intros r Hr. rewrite isSplit_roles, Hr. now destruct r.
Qed.

Lemma split_iff_sponsor_and_victim_witness :
  isSplit threeRoles "X" = true
  /\ (In (sponsorId "X") (nodeIds (normalizeGeo threeRoles))
      /\ In (victimId "X") (nodeIds (normalizeGeo threeRoles)))
  /\ isSplit threeRoles "A" = false.
Proof.
  assert (E : isSplit threeRoles "X" = true) by (vm_compute; reflexivity).
  assert (E' : rolesOf threeRoles "A" = [actor]) by (vm_compute; reflexivity).
  split; [exact E|].
  split.
  - exact (proj1 (proj2 (proj2 (split_iff_sponsor_and_victim threeRoles "X"))) E).
  - exact (proj2 (proj2 (proj2 (proj2 (split_iff_sponsor_and_victim threeRoles "A"))))
                 actor E').
Defined.

(** C1 as stated fails: in [threeRoles] the id X has role set
    {sponsor, victim, actor}, which is not exactly {sponsor, victim},
    and X is split all the same. *)
Lemma split_not_only_exact_role_set :
  rolesOf threeRoles "X" = [sponsor; victim; actor]
  /\ exactlySponsorVictim (rolesOf threeRoles "X") = false
  /\ isSplit threeRoles "X" = true
  /\ nodeIds (normalizeGeo threeRoles) = ["X [S]"; "X [T]"; "A"; "B"; "C"]
  /\ ~ (isSplit threeRoles "X" = true
        <-> exactlySponsorVictim (rolesOf threeRoles "X") = true).
Proof.
  repeat split; try (vm_compute; reflexivity).
  intros [H _]. assert (E : isSplit threeRoles "X" = true) by (vm_compute; reflexivity).
  specialize (H E). vm_compute in H. discriminate H.
Qed.

(** C2: every edge of the normalized graph has both endpoints among the
    ids of the normalized node list; [normalizeGeo] is a total function, so
    it always returns such a graph. *)
Theorem referential_integrity (raw : RawGraph) :
  Forall (fun l => In (l_source l) (nodeIds (normalizeGeo raw))
                   /\ In (l_target l) (nodeIds (normalizeGeo raw)))
         (links (normalizeGeo raw)).
Proof.
  apply Forall_forall. intros l Hl. rewrite normalizeGeo_ids.
  rewrite normalizeGeo_eq in Hl. simpl in Hl.
  now apply newLinks_resolve.
Qed.

(** C10: after healing every endpoint of a canonical link has a node
    record, every rewritten endpoint is in the new id set, so no link is
    invalid, the filter keeps all links and the output carries one link
    per input link. *)
Theorem invalid_link_filter_removes_nothing (raw : RawGraph) :
  Forall (fun l => map_has (nodesById raw) (l_source l) = true
                   /\ map_has (nodesById raw) (l_target l) = true)
         (links_of raw)
  /\ Forall (fun l => set_has (newNodeIds_of raw) (l_source l) = true
                      /\ set_has (newNodeIds_of raw) (l_target l) = true)
            (newLinks_of raw)
  /\ invalidLinks_of raw = []
  /\ validLinks (newNodeIds_of raw) (newLinks_of raw) = newLinks_of raw
  /\ links (normalizeGeo raw) = newLinks_of raw
  /\ List.length (links (normalizeGeo raw))
     = List.length (nullish (rg_links raw) []).
Proof.
  assert (R : forall l, In l (newLinks_of raw) ->
                set_has (newNodeIds_of raw) (l_source l) = true
                /\ set_has (newNodeIds_of raw) (l_target l) = true).
  { intros l Hl. destruct (newLinks_resolve raw l Hl) as [Hs Ht].
    unfold newNodeIds_of, newNodeIds. rewrite !set_has_In, !set_of_In. auto. }
  split.
  { apply Forall_forall. intros l Hl. rewrite !map_has_In.
    split; apply nodesById_mentions; exists l; auto. }
  split; [now apply Forall_forall|].
  split; [apply invalidLinks_of_nil|].
  split.
  { unfold validLinks. apply forallb_filter_id, forallb_forall.
    intros l Hl. destruct (R l Hl) as [-> ->]. reflexivity. }
  rewrite normalizeGeo_eq. simpl. split; [reflexivity|].
  unfold newLinks_of, newLinks, linkRoles_of, linkRoles, links_of, canonLinks.
  now rewrite !length_map.
Qed.

(** C6: every output edge is its canonical edge with each endpoint routed
    by that endpoint's per-edge role: unchanged when the endpoint is not
    split, the sponsor variant for roles sponsor and actor, the victim
    variant for role victim; weight and type are carried over. *)
Theorem edge_routing (raw : RawGraph) :
  (forall ns i r,
      getNodeId ns i r
      = if set_has ns i
        then match r with
             | sponsor => String.append i " [S]"
             | victim => String.append i " [T]"
             | actor => String.append i " [S]"
             end
        else i)
  /\ links (normalizeGeo raw)
     = map (fun l =>
              mkLink (route raw (l_source l) (sourceRole (classify l)))
                     (route raw (l_target l) (targetRole (classify l)))
                     (l_weight l) (l_type l))
           (links_of raw).
Proof.
  split.
  - intros ns i r. unfold getNodeId. destruct (set_has ns i); reflexivity.
  - rewrite normalizeGeo_eq. simpl.
    unfold newLinks_of, newLinks, linkRoles_of, linkRoles.
    rewrite map_map. apply map_ext. intros l.
    unfold rewire, route, isSplit, getNodeId. simpl.
    destruct (set_has (needsSplit_of raw) (l_source l)),
             (set_has (needsSplit_of raw) (l_target l)); reflexivity.
Qed.

(** C3 (as amended): each output node's degree is the number of endpoint
    occurrences of its id in the output edges (a self-loop counts twice,
    an untouched node has degree 0); when the output node ids are pairwise
    distinct, the degrees sum to twice the number of output edges. *)
Theorem degree_identity (raw : RawGraph) :
  Forall (fun n => n_degree n = occurrences (links (normalizeGeo raw)) (n_id n))
         (nodes (normalizeGeo raw))
  /\ (NoDup (nodeIds (normalizeGeo raw)) ->
      sumDegrees (nodes (normalizeGeo raw))
      = (2 * Z.of_nat (List.length (links (normalizeGeo raw))))%Z).
Proof.
  split.
  - rewrite normalizeGeo_eq. simpl. rewrite setDegrees_eq.
    apply Forall_forall. intros n Hn. apply in_map_iff in Hn.
    destruct Hn as [n0 [<- _]]. reflexivity.
  - rewrite normalizeGeo_ids. intros Hnd. rewrite normalizeGeo_eq. simpl.
    rewrite setDegrees_eq, sumDegrees_occ.
    apply sumOver_occurrences; [exact Hnd | apply newLinks_resolve].
Qed.

Lemma degree_identity_witness :
  NoDup (nodeIds (normalizeGeo chain))
  /\ sumDegrees (nodes (normalizeGeo chain)) = 4%Z.
Proof.
  assert (H : NoDup (nodeIds (normalizeGeo chain))) by (vm_compute; nodup_strings).
  split; [exact H|].
  destruct (degree_identity chain) as [_ Hsum]. rewrite (Hsum H).
  vm_compute. reflexivity.
Defined.

(** C3 as stated fails: in [collide] the split of X emits the id "X [S]",
    which a non-split node already carries; both copies get degree 2 and
    the degrees sum to 8 over 3 edges. *)
Lemma degree_sum_counterexample :
  sumDegrees (nodes (normalizeGeo collide)) = 8%Z
  /\ List.length (links (normalizeGeo collide)) = 3%nat
  /\ sumDegrees (nodes (normalizeGeo collide))
     <> (2 * Z.of_nat (List.length (links (normalizeGeo collide))))%Z.
Proof.
  split; [vm_compute; reflexivity|]. split; [vm_compute; reflexivity|].
  vm_compute. discriminate.
Qed.

(** *** Node types *)

Lemma resolveType_getRoles (m : JsMap (list Role)) (i : string) (t : option string) :
  resolveType (map_get m i) t
  = if roles_has (getRoles m i) sponsor then "sponsor"
    else if roles_has (getRoles m i) victim then "victim"
    else strOr t "actor".
Proof. unfold resolveType, getRoles. destruct (map_get m i); reflexivity. Qed.

Lemma strOr_actor_cases (t : option string) :
  strOr t "actor" = "actor"
  \/ (t = Some (strOr t "actor") /\ strOr t "actor" <> "").
Proof.
  destruct t as [s|]; simpl; [|now left].
  destruct (String.eqb_spec s ""); [now left | right; split; auto].
Qed.

(** Where the type of an output node comes from. *)
Definition typeOrigin (raw : RawGraph) (n : Node) : Prop :=
  isRoleType (n_type n) = true
  \/ (exists rn, In rn (nullish (rg_nodes raw) [])
                 /\ rn_id rn = n_id n /\ rn_type rn = Some (n_type n))
     /\ n_type n <> ""
     /\ roles_has (rolesOf raw (n_id n)) sponsor = false
     /\ roles_has (rolesOf raw (n_id n)) victim = false.

Lemma newNodes_typeOrigin (raw : RawGraph) (n : Node) :
  In n (newNodes_of raw) -> typeOrigin raw n.
Proof.
  unfold newNodes_of. rewrite newNodes_In. intros [[k rn] [He H]]. simpl in H.
  destruct (set_has (needsSplit_of raw) k).
  - destruct H as [-> | ->]; left; reflexivity.
  - subst n. unfold typeOrigin. simpl.
    rewrite !resolveType_getRoles.
    change (getRoles (nodeRoles_of raw) k) with (rolesOf raw k).
    destruct (roles_has (rolesOf raw k) sponsor); [now left|].
    destruct (roles_has (rolesOf raw k) victim); [now left|].
    destruct (nodesById_entries raw _ He) as [[Hin Hid] | Hh]; simpl in *.
    + destruct (strOr_actor_cases (rn_type rn)) as [-> | [Ht Hne]]; [now left|].
      right. split; [|split; [exact Hne | split; reflexivity]]. exists rn. auto.
    + subst rn. now left.
Qed.

(** C5 (as amended): the type of every output node is actor, sponsor or
    victim, or else it is the non-empty raw type of the listed node with
    that id, kept because the id acquires neither the sponsor nor the
    victim role. *)
Theorem node_type_origin (raw : RawGraph) :
  Forall (typeOrigin raw) (nodes (normalizeGeo raw)).
Proof.
  apply Forall_forall. intros n Hn. rewrite normalizeGeo_eq in Hn. simpl in Hn.
  rewrite setDegrees_eq in Hn. apply in_map_iff in Hn.
  destruct Hn as [n0 [<- Hn0]]. exact (newNodes_typeOrigin raw n0 Hn0).
Qed.

(** C5 as stated fails: the listed node of [foreignType] has type
    "malware" and no edges, and the output keeps that type. *)
Lemma foreign_type_kept :
  nodes (normalizeGeo foreignType) = [ mkNode "n" "malware" 0 ]
  /\ ~ Forall (fun n => isRoleType (n_type n) = true)
              (nodes (normalizeGeo foreignType)).
Proof.
  split; [vm_compute; reflexivity|].
  intros H. apply Forall_inv in H. vm_compute in H. discriminate H.
Qed.

End NormalizeSpec.

(* ================================================================= *)
(** ** Properties of the loader callback *)

Module LoaderSpec.
Import Js Normalize Loader.

Definition rejected (networkType : string) (raw : option RawGraph) : bool :=
  match onLoaded networkType raw with inl _ => true | inr _ => false end.

(** No document, or a document with neither collection. *)
Definition lacksBoth (raw : option RawGraph) : bool :=
  match raw with
  | None => true
  | Some r => match rg_nodes r, rg_links r with
              | None, None => true
              | _, _ => false
              end
  end.

(** A document missing its nodes collection or its links collection. *)
Definition lacksEither (raw : option RawGraph) : bool :=
  match raw with
  | None => true
  | Some r => match rg_nodes r, rg_links r with
              | Some _, Some _ => false
              | _, _ => true
              end
  end.

Definition nodesOnly : RawGraph :=
  mkRawGraph (Some [ mkRawNode "n" (Some "actor") (Some 0%Z) ]) None.

(** C4 (as amended): the loader rejects a document exactly when it is
    absent or lacks both collections, always with the same message; a
    document with at least one collection is accepted, so in particular
    one with both (empty or not) is never rejected. *)
Theorem rejected_iff_lacks_both (networkType : string) (raw : option RawGraph) :
  rejected networkType raw = lacksBoth raw
  /\ (lacksBoth raw = true -> onLoaded networkType raw = inl invalidStructure)
  /\ (lacksEither raw = false -> rejected networkType raw = false).
Proof.
  unfold rejected, lacksBoth, lacksEither, onLoaded.
  destruct raw as [[[ns|] [ls|]]|]; simpl; repeat split; congruence.
Qed.

Lemma rejected_iff_lacks_both_witness :
  onLoaded "geo" (Some (mkRawGraph None None)) = inl invalidStructure
  /\ rejected "geo" (Some (mkRawGraph (Some []) (Some []))) = false.
Proof.
  split.
  - exact (proj1 (proj2 (rejected_iff_lacks_both "geo" (Some (mkRawGraph None None))))
                 eq_refl).
  - exact (proj2 (proj2 (rejected_iff_lacks_both "geo"
                           (Some (mkRawGraph (Some []) (Some [])))))
                 eq_refl).
Defined.

(** C4 as stated fails: [nodesOnly] has no links collection at all and is
    accepted, with the missing collection read as empty. *)
Lemma missing_links_accepted :
  lacksEither (Some nodesOnly) = true
  /\ onLoaded "geo" (Some nodesOnly)
     = inr (mkGraph [ mkNode "n" "actor" 0 ] [])
  /\ rejected "geo" (Some nodesOnly) <> lacksEither (Some nodesOnly).
Proof.
  split; [reflexivity|]. split; [vm_compute; reflexivity|].
  vm_compute. discriminate.
Qed.

End LoaderSpec.

(* ================================================================= *)
(** ** Normalizing a normalized graph *)

Module Idempotence.
Import Js JsFacts Normalize NormalizeFacts NormalizeSpec Loader.

Lemma strOr_Some_empty (t : string) : strOr (Some t) "" = t.
Proof. simpl. destruct (String.eqb_spec t ""); congruence. Qed.

Lemma strOr_actor_idem (t : option string) :
  strOr (Some (strOr t "actor")) "actor" = strOr t "actor".
Proof.
  destruct (strOr_actor_cases t) as [-> | [_ Hne]]; [reflexivity|].
  simpl. destruct (String.eqb_spec (strOr t "actor") ""); [contradiction | reflexivity].
Qed.

Lemma canonLink_asRawLink (l : Link) : canonLink (asRawLink l) = l.
Proof.
  destruct l as [s t w ty]. unfold canonLink, asRawLink. simpl rl_source.
  simpl rl_target. simpl rl_weight. simpl rl_type. simpl endpointId.
  simpl nullish. now rewrite strOr_Some_empty.
Qed.

Lemma canonLinks_asRaw (g : Graph) : canonLinks (asRaw g) = links g.
Proof.
  unfold canonLinks, asRaw. simpl. rewrite map_map.
  rewrite (map_ext _ (fun l => l) canonLink_asRawLink). apply map_id.
Qed.

Lemma NoDup_app_disjoint (A : Type) (l1 l2 : list A) (x : A) :
  NoDup (l1 ++ l2) -> In x l1 -> In x l2 -> False.
Proof.
  induction l1 as [|a l1 IH]; simpl; intros Hnd H1 H2; [exact H1|].
  inversion Hnd; subst. destruct H1 as [-> | H1].
  - apply H3, in_or_app. now right.
  - now apply IH.
Qed.

Lemma fold_map_set_fresh (l : list RawNode) (m : JsMap RawNode) :
  NoDup (map fst m ++ map rn_id l) ->
  fold_left (fun m n => map_set m (rn_id n) n) l m
  = m ++ map (fun n => (rn_id n, n)) l.
Proof.
  revert m. induction l as [|a l IH]; intros m Hnd; simpl.
  - now rewrite app_nil_r.
  - simpl in Hnd. rewrite map_set_fresh.
    + rewrite IH.
      * now rewrite <- app_assoc.
      * rewrite map_app, <- app_assoc. exact Hnd.
    + apply map_has_false. intros Hin.
      apply (NoDup_remove_2 _ _ _ Hnd), in_or_app. now left.
Qed.

Lemma baseNodes_asRaw (g : Graph) :
  NoDup (nodeIds g) ->
  baseNodes (asRaw g) = map (fun n => (n_id n, asRawNode n)) (nodes g).
Proof.
  intros Hnd. unfold baseNodes, asRaw. simpl.
  rewrite fold_map_set_fresh; simpl.
  - now rewrite map_map.
  - now rewrite map_map.
Qed.

Lemma heal_id (ids : list string) (m : JsMap RawNode) :
  (forall i, In i ids -> In i (map fst m)) -> heal m ids = m.
Proof.
  unfold heal. induction ids as [|x ids IH]; intros H; simpl; [reflexivity|].
  assert (E : map_has m x = true) by (apply map_has_In, H; now left).
  rewrite E. apply IH. intros i Hi. apply H. now right.
Qed.

Lemma nodesById_asRaw (g : Graph) :
  NoDup (nodeIds g) ->
  (forall l, In l (links g) ->
             In (l_source l) (nodeIds g) /\ In (l_target l) (nodeIds g)) ->
  nodesById (asRaw g) = map (fun n => (n_id n, asRawNode n)) (nodes g).
Proof.
  intros Hnd Hcl. unfold nodesById. rewrite canonLinks_asRaw, baseNodes_asRaw by exact Hnd.
  apply heal_id. intros i Hi. apply allNodeIds_In in Hi.
  destruct Hi as [l [Hl Hi]]. rewrite map_map. simpl.
  destruct (Hcl l Hl) as [Hs Ht]. destruct Hi as [<- | <-]; assumption.
Qed.

Lemma newNodes_no_split (byId : JsMap RawNode) (nr : JsMap (list Role)) :
  newNodes byId nr []
  = map (fun e => mkNode (fst e) (resolveType (map_get nr (fst e)) (rn_type (snd e))) 0)
        byId.
Proof.
  induction byId as [|e byId IH]; [reflexivity|].
  unfold newNodes in *. simpl. now f_equal.
Qed.

Lemma newLinks_no_split (ls : list Link) : newLinks [] (linkRoles ls) = ls.
Proof.
  unfold newLinks, linkRoles. rewrite map_map.
  rewrite (map_ext _ (fun l => l)); [apply map_id|].
  intros [s t w ty]. reflexivity.
Qed.

Lemma map_fixed (A : Type) (f : A -> A) (l : list A) :
  (forall x, In x l -> f x = x) -> map f l = l.
Proof.
  intros H. rewrite (map_ext_in f (fun x => x) l H). apply map_id.
Qed.

(** A graph with distinct ids, closed edges, no conflicting roles, types
    that agree with the roles and degrees that agree with the edges is a
    fixed point. *)
Lemma normalizeGeo_fixed (g : Graph) :
  NoDup (nodeIds g) ->
  (forall l, In l (links g) ->
             In (l_source l) (nodeIds g) /\ In (l_target l) (nodeIds g)) ->
  needsSplit (nodeRoles (linkRoles (links g))) = [] ->
  (forall n, In n (nodes g) ->
             n_type n = resolveType (map_get (nodeRoles (linkRoles (links g))) (n_id n))
                                    (Some (n_type n))) ->
  (forall n, In n (nodes g) -> n_degree n = occurrences (links g) (n_id n)) ->
  normalizeGeo (asRaw g) = g.
Proof.
  intros Hnd Hcl Hns Hty Hdg. rewrite normalizeGeo_eq.
  unfold newNodes_of, newLinks_of, needsSplit_of, nodeRoles_of, linkRoles_of, links_of.
  rewrite canonLinks_asRaw, Hns, newLinks_no_split, newNodes_no_split.
  rewrite (nodesById_asRaw g Hnd Hcl), setDegrees_eq, !map_map. simpl.
  destruct g as [ns ls]. simpl in *. f_equal.
  apply map_fixed. intros [i t d] Hn.
  specialize (Hty _ Hn). specialize (Hdg _ Hn). simpl in *.
  now rewrite <- Hty, <- Hdg.
Qed.

(** *** The output of a run, seen as an input *)

Lemma classify_source_not_victim (l : Link) : sourceRole (classify l) <> victim.
Proof. unfold classify. simpl. destruct (includes _ _); discriminate. Qed.

Lemma classify_target_not_sponsor (l : Link) : targetRole (classify l) <> sponsor.
Proof.
  unfold classify. simpl.
  destruct (includes _ "_to_victim" || includes _ "to_victim"); discriminate.
Qed.

Lemma roleAt_old (raw : RawGraph) (i : string) (r : Role) :
  roleAt (linkRoles_of raw) i r <->
  exists l, In l (links_of raw) /\
    ((l_source l = i /\ sourceRole (classify l) = r)
     \/ (l_target l = i /\ targetRole (classify l) = r)).
Proof.
  unfold roleAt, linkRoles_of, linkRoles. split.
  - intros [lr [Hin H]]. apply in_map_iff in Hin. destruct Hin as [l [<- Hl]].
    exists l. auto.
  - intros [l [Hl H]]. exists (classify l). split; [now apply in_map | exact H].
Qed.

Lemma roleAt_new (raw : RawGraph) (i : string) (r : Role) :
  roleAt (linkRoles (newLinks_of raw)) i r <->
  exists l, In l (links_of raw) /\
    ((getNodeId (needsSplit_of raw) (l_source l) (sourceRole (classify l)) = i
      /\ sourceRole (classify l) = r)
     \/ (getNodeId (needsSplit_of raw) (l_target l) (targetRole (classify l)) = i
         /\ targetRole (classify l) = r)).
Proof.
  unfold roleAt, newLinks_of, newLinks, linkRoles_of, linkRoles.
  rewrite !map_map. split.
  - intros [lr [Hin H]]. apply in_map_iff in Hin. destruct Hin as [l [<- Hl]].
    exists l. split; [exact Hl | exact H].
  - intros [l [Hl H]].
    exists (classify (rewire (needsSplit_of raw) (classify l))).
    split; [|exact H].
    apply (in_map (fun x => classify (rewire (needsSplit_of raw) (classify x)))), Hl.
Qed.

Lemma map_id_flat_map (A : Type) (f : A -> list Node) (l : list A) :
  map n_id (flat_map f l) = flat_map (fun e => map n_id (f e)) l.
Proof.
  induction l as [|a l IH]; simpl; [reflexivity|]. now rewrite map_app, IH.
Qed.

Lemma flat_map_NoDup_disjoint (A B : Type) (f : A -> list B) (l : list A) :
  NoDup (flat_map f l) ->
  forall a b x, In a l -> In b l -> a <> b -> In x (f a) -> In x (f b) -> False.
Proof.
  induction l as [|c l IH]; simpl; intros Hnd a b x Ha Hb Hab Hxa Hxb; [exact Ha|].
  destruct Ha as [-> | Ha], Hb as [-> | Hb].
  - now apply Hab.
  - apply (NoDup_app_disjoint _ _ x Hnd Hxa). apply in_flat_map. eauto.
  - apply (NoDup_app_disjoint _ _ x Hnd Hxb). apply in_flat_map. eauto.
  - apply (IH (NoDup_app_remove_l _ _ Hnd) a b x); assumption.
Qed.

Section Rerun.
Variable raw : RawGraph.
Hypothesis distinct : NoDup (map n_id (newNodes_of raw)).
Hypothesis no_conflict : needsSplit (nodeRoles (linkRoles (newLinks_of raw))) = [].

Let ns := needsSplit_of raw.

Lemma variant_not_key (x k : string) (r : Role) :
  set_has ns x = true -> In x (map fst (nodesById raw)) ->
  set_has ns k = false -> In k (map fst (nodesById raw)) ->
  getNodeId ns x r <> k.
Proof.
  intros Hx Kx Hk Kk Heq.
  apply in_map_iff in Kx. destruct Kx as [[x' rx] [Ex Kx]].
  apply in_map_iff in Kk. destruct Kk as [[k' rk] [Ek Kk]].
  simpl in Ex, Ek. subst x' k'.
  unfold newNodes_of, newNodes in distinct. rewrite map_id_flat_map in distinct.
  apply (@flat_map_NoDup_disjoint _ _ _ _ distinct (x, rx) (k, rk) k Kx Kk).
  - intros [= E _]. subst x. fold ns in Hk. congruence.
  - simpl. fold ns. rewrite Hx. simpl. unfold getNodeId in Heq.
    rewrite Hx in Heq. simpl in Heq. destruct r; auto.
  - simpl. fold ns. rewrite Hk. simpl. now left.
Qed.

Lemma roles_kept (k : string) (r : Role) :
  set_has ns k = false -> In k (map fst (nodesById raw)) ->
  (roleAt (linkRoles (newLinks_of raw)) k r <-> roleAt (linkRoles_of raw) k r).
Proof.
  intros Hk Kk. rewrite roleAt_new, roleAt_old. fold ns.
  assert (Keep : forall i ro, In i (map fst (nodesById raw)) ->
                              (getNodeId ns i ro = k <-> i = k)).
  { intros i ro Ki. destruct (set_has ns i) eqn:Hi.
    - split.
      + intros H. exfalso. exact (@variant_not_key i k ro Hi Ki Hk Kk H).
      + intros ->. congruence.
    - unfold getNodeId. rewrite Hi. simpl. tauto. }
  split; intros [l [Hl H]]; exists l; (split; [exact Hl|]);
    assert (Ks : In (l_source l) (map fst (nodesById raw)))
      by (apply nodesById_mentions; exists l; auto);
    assert (Kt : In (l_target l) (map fst (nodesById raw)))
      by (apply nodesById_mentions; exists l; auto);
    rewrite (Keep _ (sourceRole (classify l)) Ks),
            (Keep _ (targetRole (classify l)) Kt) in *; exact H.
Qed.

Lemma sponsor_variant_role (x : string) :
  set_has ns x = true -> roleAt (linkRoles (newLinks_of raw)) (sponsorId x) sponsor.
Proof.
  intros Hx. assert (H := Hx). unfold ns in H. fold (isSplit raw x) in H.
  rewrite isSplit_roles, andb_true_iff, !rolesOf_has in H.
  destruct H as [H _]. apply roleAt_old in H. destruct H as [l [Hl H]].
  apply roleAt_new. exists l. split; [exact Hl|]. fold ns.
  destruct H as [[Hs Hr] | [_ Hr]].
  - left. rewrite Hs, Hr. unfold getNodeId. rewrite Hx. auto.
  - exfalso. exact (classify_target_not_sponsor l Hr).
Qed.

Lemma victim_variant_role (x : string) :
  set_has ns x = true -> roleAt (linkRoles (newLinks_of raw)) (victimId x) victim.
Proof.
  intros Hx. assert (H := Hx). unfold ns in H. fold (isSplit raw x) in H.
  rewrite isSplit_roles, andb_true_iff, !rolesOf_has in H.
  destruct H as [_ H]. apply roleAt_old in H. destruct H as [l [Hl H]].
  apply roleAt_new. exists l. split; [exact Hl|]. fold ns.
  destruct H as [[_ Hr] | [Ht Hr]].
  - exfalso. exact (classify_source_not_victim l Hr).
  - right. rewrite Ht, Hr. unfold getNodeId. rewrite Hx. auto.
Qed.

Let nr' := nodeRoles (linkRoles (newLinks_of raw)).

Lemma no_conflict_at (i : string) :
  roles_has (getRoles nr' i) victim = true ->
  roles_has (getRoles nr' i) sponsor = false.
Proof.
  intros Hv.
  assert (H := needsSplit_has nr' i (nodeRoles_NoDup _)).
  unfold nr' in H at 1. rewrite no_conflict in H. simpl in H.
  rewrite Hv, andb_true_r in H. now symmetry.
Qed.

Lemma types_kept (n : Node) :
  In n (newNodes_of raw) ->
  n_type n = resolveType (map_get nr' (n_id n)) (Some (n_type n)).
Proof.
  unfold newNodes_of. rewrite newNodes_In. intros [[k rn] [He H]].
  simpl in H. fold ns in H. rewrite resolveType_getRoles.
  destruct (set_has ns k) eqn:Hk.
  - destruct H as [-> | ->]; simpl.
    + apply sponsor_variant_role, nodeRoles_has in Hk. fold nr' in Hk.
      now rewrite Hk.
    + apply victim_variant_role, nodeRoles_has in Hk. fold nr' in Hk.
      now rewrite (no_conflict_at _ Hk), Hk.
  - subst n. simpl.
    assert (Kk : In k (map fst (nodesById raw)))
      by (apply in_map_iff; exists (k, rn); auto).
    assert (Same : forall r, roles_has (getRoles nr' k) r
                             = roles_has (rolesOf raw k) r).
    { intros r. apply eq_true_iff_eq. unfold nr'.
      rewrite nodeRoles_has, rolesOf_has. now apply roles_kept. }
    rewrite resolveType_getRoles, !Same.
    change (getRoles (nodeRoles_of raw) k) with (rolesOf raw k).
    destruct (roles_has (rolesOf raw k) sponsor); [reflexivity|].
    destruct (roles_has (rolesOf raw k) victim); [reflexivity|].
    symmetry. apply strOr_actor_idem.
Qed.

Lemma rerun_fixed : normalizeGeo (asRaw (normalizeGeo raw)) = normalizeGeo raw.
Proof.
  apply normalizeGeo_fixed.
  - unfold nodeIds. fold (nodeIds (normalizeGeo raw)).
    now rewrite normalizeGeo_ids.
  - intros l Hl. rewrite normalizeGeo_ids. rewrite normalizeGeo_eq in Hl.
    now apply newLinks_resolve.
  - rewrite normalizeGeo_eq. exact no_conflict.
  - rewrite normalizeGeo_eq. simpl. rewrite setDegrees_eq.
    intros n Hn. apply in_map_iff in Hn. destruct Hn as [n0 [<- Hn0]].
    simpl. now apply types_kept.
  - rewrite normalizeGeo_eq. simpl. rewrite setDegrees_eq.
    intros n Hn. apply in_map_iff in Hn. destruct Hn as [n0 [<- Hn0]].
    reflexivity.
Qed.
End Rerun.

(** An input that lists A as a plain actor although A sponsors B. *)
Definition mistyped : RawGraph :=
  mkRawGraph (Some [ mkRawNode "A" (Some "actor") (Some 1%Z);
                     mkRawNode "B" (Some "actor") (Some 1%Z) ])
    (Some [ mkRawLink (PlainId "A") (PlainId "B") (Some 1%Z) (Some "sponsor_to_actor") ]).

(** Nodes without their degrees. *)
Definition idsAndTypes (g : Graph) : list (string * string) :=
  map (fun n => (n_id n, n_type n)) (nodes g).

(** X20: when the output of a run has pairwise distinct node ids and no
    node with conflicting roles, normalizing that output again returns it
    unchanged: same nodes (with the same degrees) and same edges. *)
Theorem normalizeGeo_idempotent (raw : RawGraph) :
  NoDup (nodeIds (normalizeGeo raw)) ->
  needsSplit_of (asRaw (normalizeGeo raw)) = [] ->
  normalizeGeo (asRaw (normalizeGeo raw)) = normalizeGeo raw.
Proof.
  intros Hnd Hns. apply rerun_fixed.
  - now rewrite <- normalizeGeo_ids.
  - unfold needsSplit_of, nodeRoles_of, linkRoles_of, links_of in Hns.
    rewrite canonLinks_asRaw, normalizeGeo_eq in Hns. exact Hns.
Qed.

Lemma normalizeGeo_idempotent_witness :
  normalizeGeo (asRaw (normalizeGeo threeRoles)) = normalizeGeo threeRoles.
Proof.
  apply normalizeGeo_idempotent.
  - vm_compute. nodup_strings.
  - vm_compute. reflexivity.
Defined.

(** A conflict-free graph whose only link ends at an unlisted id. *)
Definition dangling : Graph :=
  mkGraph [ mkNode "A" "actor" 1 ] [ mkLink "A" "B" 1 "" ].

(** C9 as stated fails.  The output of [collide] is a normalized graph in
    which no node has conflicting roles, yet it carries the id "X [S]"
    twice and normalizing it again drops the copy typed actor.  Nor is a
    conflict-free graph that was never normalized left alone: in
    [mistyped] node A changes type, and in [dangling] a node is added for
    the unlisted endpoint. *)
Lemma renormalizing_changes_nodes :
  needsSplit_of (asRaw (normalizeGeo collide)) = []
  /\ In ("X [S]", "actor") (idsAndTypes (normalizeGeo collide))
  /\ ~ In ("X [S]", "actor")
          (idsAndTypes (normalizeGeo (asRaw (normalizeGeo collide))))
  /\ needsSplit_of mistyped = []
  /\ In ("A", Some "actor")
        (map (fun n => (rn_id n, rn_type n)) (nullish (rg_nodes mistyped) []))
  /\ idsAndTypes (normalizeGeo mistyped) = [("A", "sponsor"); ("B", "actor")]
  /\ needsSplit_of (asRaw dangling) = []
  /\ idsAndTypes dangling = [("A", "actor")]
  /\ idsAndTypes (normalizeGeo (asRaw dangling)) = [("A", "actor"); ("B", "actor")].
Proof.
  split; [vm_compute; reflexivity|].
  split; [vm_compute; tauto|].
  split; [vm_compute; intuition discriminate|].
  split; [vm_compute; reflexivity|].
  split; [vm_compute; tauto|].
  split; [vm_compute; reflexivity|].
  split; [vm_compute; reflexivity|].
  split; vm_compute; reflexivity.
Qed.

(** *** Graphs that normalization leaves alone *)

(** Every edge endpoint is a node of the graph. *)
Definition closedEdges (g : Graph) : Prop :=
  forall l, In l (links g) ->
            In (l_source l) (nodeIds g) /\ In (l_target l) (nodeIds g).

(** Each node already has the type that its roles resolve to: sponsor
    with the sponsor role, else victim with the victim role, else any
    non-empty type of its own. *)
Definition typesSettled (g : Graph) : Prop :=
  forall n, In n (nodes g) ->
    if roles_has (rolesOf (asRaw g) (n_id n)) sponsor then n_type n = "sponsor"
    else if roles_has (rolesOf (asRaw g) (n_id n)) victim then n_type n = "victim"
    else n_type n <> "".

(** The graph with every degree recomputed from its links. *)
Definition withRecomputedDegrees (g : Graph) : Graph :=
  {| nodes := map (fun n => mkNode (n_id n) (n_type n)
                                   (occurrences (links g) (n_id n)))
                  (nodes g);
     links := links g |}.

(** A settled graph whose stored degrees are stale. *)
Definition settled : Graph :=
  mkGraph [ mkNode "S" "sponsor" 9; mkNode "A" "actor" 0; mkNode "V" "victim" 0;
            mkNode "Lone" "malware" 4 ]
          [ mkLink "S" "A" 2 "sponsor_to_actor"; mkLink "A" "V" 1 "actor_to_victim";
            mkLink "A" "A" 1 "" ].

Lemma no_member_nil (l : list string) :
  (forall i, set_has l i = false) -> l = [].
Proof.
  destruct l as [|x l]; [reflexivity|]. intros H. specialize (H x).
  simpl in H. rewrite String.eqb_refl in H. discriminate H.
Qed.

(** C9 (as amended): a graph with pairwise distinct node ids, every edge
    endpoint among its nodes, no id with conflicting roles and every node
    typed as its roles resolve is left unchanged by normalization up to
    degree recomputation: the edges are the same, and the nodes are the
    same ids and types in the same order with their degrees recomputed
    from the edges. *)
Theorem normalizeGeo_fixes_settled_graphs (g : Graph) :
  NoDup (nodeIds g) ->
  closedEdges g ->
  (forall i, isSplit (asRaw g) i = false) ->
  typesSettled g ->
  normalizeGeo (asRaw g) = withRecomputedDegrees g.
Proof.
  intros Hnd Hcl Hsp Hty.
  assert (Hns : needsSplit (nodeRoles (linkRoles (links g))) = []).
  { assert (E : needsSplit_of (asRaw g) = []) by (apply no_member_nil; exact Hsp).
    unfold needsSplit_of, nodeRoles_of, linkRoles_of, links_of in E.
    rewrite canonLinks_asRaw in E. exact E. }
  assert (Hty' : forall n, In n (nodes g) ->
            resolveType (map_get (nodeRoles (linkRoles (links g))) (n_id n))
                        (Some (n_type n)) = n_type n).
  { intros n Hn. specialize (Hty n Hn).
    unfold rolesOf, nodeRoles_of, linkRoles_of, links_of in Hty.
    rewrite canonLinks_asRaw in Hty. rewrite resolveType_getRoles. unfold getRoles.
    destruct (roles_has (nullish (map_get (nodeRoles (linkRoles (links g))) (n_id n)) [])
                        sponsor); [now symmetry|].
    destruct (roles_has (nullish (map_get (nodeRoles (linkRoles (links g))) (n_id n)) [])
                        victim); [now symmetry|].
    simpl. destruct (String.eqb_spec (n_type n) ""); [contradiction | reflexivity]. }
  rewrite normalizeGeo_eq.
  unfold newNodes_of, newLinks_of, needsSplit_of, nodeRoles_of, linkRoles_of, links_of.
  rewrite canonLinks_asRaw, Hns, newLinks_no_split, newNodes_no_split.
  rewrite (nodesById_asRaw g Hnd Hcl), setDegrees_eq, !map_map.
  unfold withRecomputedDegrees. f_equal. apply map_ext_in. intros n Hn. simpl.
  now rewrite (Hty' n Hn).
Qed.

Lemma normalizeGeo_fixes_settled_graphs_witness :
  normalizeGeo (asRaw settled)
  = mkGraph [ mkNode "S" "sponsor" 1; mkNode "A" "actor" 4; mkNode "V" "victim" 1;
              mkNode "Lone" "malware" 0 ]
            (links settled).
Proof.
  assert (E : needsSplit_of (asRaw settled) = []) by (vm_compute; reflexivity).
  rewrite (@normalizeGeo_fixes_settled_graphs settled).
  - vm_compute. reflexivity.
  - vm_compute. nodup_strings.
  - intros l Hl. simpl in Hl.
    destruct Hl as [<- | [<- | [<- | []]]]; simpl; tauto.
  - intros i. unfold isSplit. now rewrite E.
  - intros n Hn. simpl in Hn.
    destruct Hn as [<- | [<- | [<- | [<- | []]]]]; vm_compute;
      try reflexivity; discriminate.
Defined.

End Idempotence.

(* ================================================================= *)
(** ** Facts about strings and sorting *)

Module QueryFacts.
Import Js JsFacts.

Lemma prefix_toLowerCase (s p : string) :
  String.prefix p s = true ->
  String.prefix (toLowerCase p) (toLowerCase s) = true.
Proof.
  revert p. induction s as [|b s IH]; intros [|a p]; simpl; try congruence.
  destruct (ascii_dec a b) as [->|Hn]; [|discriminate].
  intros H. destruct (ascii_dec (toLowerCase_char b) (toLowerCase_char b));
    [now apply IH | congruence].
Qed.

Lemma includes_unfold (s p : string) :
  includes s p
  = String.prefix p s
    || match s with
       | EmptyString => false
       | String _ h => includes h p
       end.
Proof. destruct s; reflexivity. Qed.

Lemma includes_toLowerCase (s p : string) :
  includes s p = true -> includes (toLowerCase s) (toLowerCase p) = true.
Proof.
  induction s as [|c s IH]; rewrite includes_unfold, orb_true_iff;
    intros [H | H]; rewrite includes_unfold, orb_true_iff.
  - left. now apply prefix_toLowerCase.
  - discriminate.
  - left. now apply prefix_toLowerCase.
  - right. simpl. now apply IH.
Qed.

(** A needle without capitals survives lower-casing of the text. *)
Lemma includes_lower_needle (s p : string) :
  toLowerCase p = p -> includes s p = true -> includes (toLowerCase s) p = true.
Proof. intros E H. rewrite <- E. now apply includes_toLowerCase. Qed.

Section SortFacts.
Variable A : Type.
Variable key : A -> Z.

Definition descending : list A -> Prop :=
  StronglySorted (fun a b => (key b <= key a)%Z).

Lemma insertDesc_perm (x : A) (l : list A) :
  Permutation (insertDesc key x l) (x :: l).
Proof.
  induction l as [|y l IH]; simpl; [reflexivity|].
  destruct (Z.leb (key y) (key x)); [reflexivity|].
  rewrite IH. apply perm_swap.
Qed.

Lemma sortDesc_perm (l : list A) : Permutation (sortDesc key l) l.
Proof.
  induction l as [|x l IH]; simpl; [reflexivity|].
  rewrite insertDesc_perm. now constructor.
Qed.

Lemma sortDesc_length (l : list A) :
  List.length (sortDesc key l) = List.length l.
Proof. apply Permutation_length, sortDesc_perm. Qed.

Lemma sortDesc_In (l : list A) (x : A) : In x (sortDesc key l) <-> In x l.
Proof.
  split; apply Permutation_in; [|symmetry]; apply sortDesc_perm.
Qed.

Lemma insertDesc_descending (x : A) (l : list A) :
  descending l -> descending (insertDesc key x l).
Proof.
  unfold descending. induction 1 as [|y l Hs IH Hy]; simpl.
  - constructor; constructor.
  - destruct (Z.leb_spec (key y) (key x)) as [Hle | Hlt].
    + constructor; [now constructor|].
      constructor; [exact Hle|].
      eapply Forall_impl; [|exact Hy]. simpl. intros z Hz. lia.
    + constructor; [exact IH|].
      apply (Permutation_Forall (x := x :: l));
        [symmetry; apply insertDesc_perm|].
      constructor; [lia | exact Hy].
Qed.

Lemma sortDesc_descending (l : list A) : descending (sortDesc key l).
Proof.
  induction l as [|x l IH]; simpl; [constructor|].
  now apply insertDesc_descending.
Qed.

(** Stability: rows with one key keep their relative order. *)
Lemma insertDesc_stable (k : Z) (x : A) (l : list A) :
  filter (fun a => Z.eqb (key a) k) (insertDesc key x l)
  = filter (fun a => Z.eqb (key a) k) (x :: l).
Proof.
  induction l as [|y l IH]; simpl; [reflexivity|].
  destruct (Z.leb_spec (key y) (key x)) as [Hle | Hlt]; [reflexivity|].
  simpl. rewrite IH. simpl.
  destruct (Z.eqb_spec (key x) k), (Z.eqb_spec (key y) k); try reflexivity.
  lia.
Qed.

Lemma sortDesc_stable (k : Z) (l : list A) :
  filter (fun a => Z.eqb (key a) k) (sortDesc key l)
  = filter (fun a => Z.eqb (key a) k) l.
Proof.
  induction l as [|x l IH]; simpl; [reflexivity|].
  rewrite insertDesc_stable. simpl. now rewrite IH.
Qed.
End SortFacts.

Lemma two_distinct_length (l : list string) (a b : string) :
  In a l -> In b l -> a <> b -> (2 <= List.length l)%nat.
Proof.
  destruct l as [|x [|y l]]; simpl; intros Ha Hb Hab.
  - destruct Ha.
  - destruct Ha as [<- | []], Hb as [<- | []]. congruence.
  - lia.
Qed.

Lemma single_value_length (l : list string) (s : string) :
  NoDup l -> (forall x, In x l -> x = s) -> (List.length l <= 1)%nat.
Proof.
  destruct l as [|x [|y l]]; simpl; intros Hnd H; try lia.
  exfalso. apply NoDup_cons_iff in Hnd. apply (proj1 Hnd). left.
  rewrite (H x), (H y); auto.
Qed.

End QueryFacts.

(* ================================================================= *)
(** ** Properties of analyzeQuery *)

Module QuerySpec.
Import Js JsFacts Query QueryFacts.

(** Some edge whose lower-cased type contains sponsor_to_actor runs from
    [s] to [i]. *)
Definition sponsorEdgeTo (data : QueryData) (i s : string) : Prop :=
  exists l, In l (d_links data)
            /\ endpointId (rl_target l) = i
            /\ includes (toLowerCase (strOr (rl_type l) "")) "sponsor_to_actor" = true
            /\ endpointId (rl_source l) = s.

(** The row emitted for an actor node. *)
Definition rowOf (data : QueryData) (a : Node) : SponsorRow :=
  mkSponsorRow (n_id a) (Z.of_nat (List.length (uniqueSponsors data a)))
               (uniqueSponsors data a) (n_degree a).

(** What the multiple_sponsors answer must look like. *)
Definition multipleSponsorsContract (data : QueryData) (results : list SponsorRow)
  : Prop :=
  (forall row, In row results <->
     exists a, In a (d_nodes data) /\ n_type a = "actor"
               /\ (2 <= List.length (uniqueSponsors data a))%nat
               /\ row = rowOf data a)
  /\ (forall a, NoDup (uniqueSponsors data a)
                /\ forall s, In s (uniqueSponsors data a)
                             <-> sponsorEdgeTo data (n_id a) s)
  /\ descending r_sponsorCount results
  /\ (forall k, filter (fun r => Z.eqb (r_sponsorCount r) k) results
                = filter (fun r => Z.eqb (r_sponsorCount r) k)
                         (actorsWithMultipleSponsors data))
  /\ (forall a s1 s2,
         In a (d_nodes data) -> n_type a = "actor" ->
         sponsorEdgeTo data (n_id a) s1 -> sponsorEdgeTo data (n_id a) s2 ->
         s1 <> s2 -> In (rowOf data a) results)
  /\ (forall i s,
         (forall s', sponsorEdgeTo data i s' -> s' = s) ->
         forall row, In row results -> r_actor row <> i).

(** The scenario of section 8: A is backed by X and Y, B by X only. *)
Definition twoSponsors : QueryData :=
  mkQueryData
    [ mkNode "A" "actor" 2; mkNode "B" "actor" 1;
      mkNode "X" "sponsor" 2; mkNode "Y" "sponsor" 1 ]
    [ mkRawLink (PlainId "X") (PlainId "A") (Some 1%Z) (Some "sponsor_to_actor");
      mkRawLink (NodeObj "Y") (PlainId "A") (Some 1%Z) (Some "sponsor_to_actor");
      mkRawLink (PlainId "X") (PlainId "B") (Some 1%Z) (Some "sponsor_to_actor") ].

Definition resultTypes : list string :=
  [ "multiple_sponsors"; "country_targets"; "most_targeted"; "most_active"; "unknown" ].

Lemma uniqueSponsors_spec (data : QueryData) (a : Node) :
  NoDup (uniqueSponsors data a)
  /\ forall s, In s (uniqueSponsors data a) <-> sponsorEdgeTo data (n_id a) s.
Proof.
  unfold uniqueSponsors. split; [apply set_of_NoDup|].
  intros s. rewrite set_of_In, in_map_iff. unfold sponsorEdgeTo, sponsorEdges.
  split.
  - intros [l [Hs Hl]]. apply filter_In in Hl. destruct Hl as [Hl Hf].
    apply andb_true_iff in Hf. destruct Hf as [Ht Hi].
    apply String.eqb_eq in Ht. exists l. auto.
  - intros [l [Hl [Ht [Hi Hs]]]]. exists l. split; [exact Hs|].
    apply filter_In. split; [exact Hl|].
    apply andb_true_iff. split; [now apply String.eqb_eq | exact Hi].
Qed.

Lemma rows_In (data : QueryData) (row : SponsorRow) :
  In row (actorsWithMultipleSponsors data) <->
  exists a, In a (d_nodes data) /\ n_type a = "actor"
            /\ (2 <= List.length (uniqueSponsors data a))%nat
            /\ row = rowOf data a.
Proof.
  unfold actorsWithMultipleSponsors, actorNodes. rewrite in_flat_map. split.
  - intros [a [Ha Hrow]]. apply filter_In in Ha. destruct Ha as [Ha Ht].
    apply String.eqb_eq in Ht.
    destruct (Nat.ltb_spec 1 (List.length (uniqueSponsors data a))) as [Hlt | Hge];
      simpl in Hrow; [|contradiction].
    destruct Hrow as [<- | []]. exists a. repeat split; auto.
  - intros [a [Ha [Ht [Hlen ->]]]]. exists a. split.
    + apply filter_In. split; [exact Ha | now apply String.eqb_eq].
    + destruct (Nat.ltb_spec 1 (List.length (uniqueSponsors data a))) as [Hlt | Hge];
        [now left | lia].
Qed.

Lemma multipleSponsors_contract (data : QueryData) :
  multipleSponsorsContract data
    (sortDesc r_sponsorCount (actorsWithMultipleSponsors data)).
Proof.
  unfold multipleSponsorsContract.
  split; [intros row; rewrite sortDesc_In; apply rows_In|].
  split; [intros a; apply uniqueSponsors_spec|].
  split; [apply sortDesc_descending|].
  split; [intros k; apply sortDesc_stable|].
  split.
  - intros a s1 s2 Ha Ht H1 H2 Hne. apply sortDesc_In, rows_In.
    exists a. repeat split; auto.
    destruct (uniqueSponsors_spec data a) as [_ Hin].
    apply (@two_distinct_length _ s1 s2); [now apply Hin | now apply Hin | exact Hne].
  - intros i s Hone row Hrow Hi. apply sortDesc_In, rows_In in Hrow.
    destruct Hrow as [a [_ [_ [Hlen ->]]]]. simpl in Hi. subst i.
    destruct (uniqueSponsors_spec data a) as [Hnd Hin].
    assert (Hle := @single_value_length _ s Hnd (fun x Hx => Hone x (proj1 (Hin x) Hx))).
    lia.
Qed.

(** C7: when the question text contains "multiple" and "sponsor" or
    "backed", the answer is tagged multiple_sponsors; its rows are exactly
    the actor-typed nodes with at least two distinct sources among the
    edges typed sponsor_to_actor (case-insensitively) that target them,
    each with that count, those sources and the node's degree; [count] is
    the number of rows; rows are in descending order of sponsorCount and
    rows with equal counts keep their encounter order. *)
Theorem multiple_sponsors_query (data : QueryData) (queryText : string) :
  includes queryText "multiple" = true ->
  includes queryText "sponsor" || includes queryText "backed" = true ->
  exists results,
    analyzeQuery (Some data) queryText
    = Some (MultipleSponsors (Z.of_nat (List.length results)) results)
    /\ resultType (MultipleSponsors (Z.of_nat (List.length results)) results)
       = "multiple_sponsors"
    /\ multipleSponsorsContract data results.
Proof.
  intros Hm Hs.
  exists (sortDesc r_sponsorCount (actorsWithMultipleSponsors data)).
  split; [|split; [reflexivity | apply multipleSponsors_contract]].
  unfold analyzeQuery.
  assert (E1 : includes (toLowerCase queryText) "multiple" = true)
    by (apply includes_lower_needle; [reflexivity | exact Hm]).
  assert (E2 : includes (toLowerCase queryText) "sponsor"
               || includes (toLowerCase queryText) "backed" = true).
  { apply orb_true_iff in Hs. apply orb_true_iff.
    destruct Hs as [H | H]; [left | right];
      (apply includes_lower_needle; [reflexivity | exact H]). }
  rewrite E1, E2. simpl. unfold multipleSponsors.
  now rewrite sortDesc_length.
Qed.

Definition scenarioQuestion : string := "which actors have multiple state sponsors?".

Lemma multiple_sponsors_query_witness :
  exists results,
    analyzeQuery (Some twoSponsors) scenarioQuestion
    = Some (MultipleSponsors (Z.of_nat (List.length results)) results)
    /\ resultType (MultipleSponsors (Z.of_nat (List.length results)) results)
       = "multiple_sponsors"
    /\ multipleSponsorsContract twoSponsors results.
Proof.
  apply (multiple_sponsors_query twoSponsors scenarioQuestion).
  - vm_compute. reflexivity.
  - vm_compute. reflexivity.
Defined.

(** The scenario of section 8, evaluated. *)
Example scenario_two_sponsors :
  analyzeQuery (Some twoSponsors) scenarioQuestion
  = Some (MultipleSponsors 1 [ mkSponsorRow "A" 2 ["X"; "Y"] 2 ]).
Proof. vm_compute. reflexivity. Qed.

(** C8: with data loaded, every question gets an answer carrying one of
    the five tags, and a question that triggers none of the four patterns
    gets the unknown answer with the fixed guidance message. *)
Theorem analyzeQuery_total (data : QueryData) (queryText : string) :
  exists r,
    analyzeQuery (Some data) queryText = Some r
    /\ In (resultType r) resultTypes
    /\ (isMultipleSponsors (toLowerCase queryText) = false ->
        isCountryTargets (toLowerCase queryText) = false ->
        isMostTargeted (toLowerCase queryText) = false ->
        isMostActive (toLowerCase queryText) = false ->
        r = Unknown guidance).
Proof.
  unfold analyzeQuery, isMultipleSponsors, isCountryTargets, isMostTargeted,
    isMostActive, resultTypes.
  set (q := toLowerCase queryText).
  destruct (includes q "multiple" && (includes q "sponsor" || includes q "backed")).
  { eexists. split; [reflexivity|]. split; [simpl; tauto | discriminate]. }
  assert (Rest : forall r,
             r = (if includes q "most targeted" then mostTargeted data
                  else if includes q "most active"
                          && (includes q "sponsor" || includes q "actor")
                  then mostActive data q
                  else Unknown guidance) ->
             In (resultType r)
                [ "multiple_sponsors"; "country_targets"; "most_targeted";
                  "most_active"; "unknown" ]
             /\ (includes q "most targeted" = false ->
                 includes q "most active"
                 && (includes q "sponsor" || includes q "actor") = false ->
                 r = Unknown guidance)).
  { intros r ->. destruct (includes q "most targeted").
    { split; [simpl; tauto | discriminate]. }
    destruct (includes q "most active" && (includes q "sponsor" || includes q "actor")).
    { split; [simpl; tauto | discriminate]. }
    split; [simpl; tauto | reflexivity]. }
  destruct (countryMatch q) as [cap|].
  - destruct (includes q "target").
    { eexists. split; [reflexivity|]. split; [simpl; tauto | discriminate]. }
    eexists. split; [reflexivity|].
    destruct (Rest _ eq_refl) as [R1 R2]. split; [exact R1|]. intros _ _. exact R2.
  - eexists. split; [reflexivity|].
    destruct (Rest _ eq_refl) as [R1 R2]. split; [exact R1|]. intros _ _. exact R2.
Qed.

Lemma analyzeQuery_total_witness :
  exists r, analyzeQuery (Some twoSponsors) "hello" = Some r
            /\ r = Unknown guidance.
Proof.
  destruct (analyzeQuery_total twoSponsors "hello") as [r [Hr [_ Hu]]].
  exists r. split; [exact Hr|].
  apply Hu; vm_compute; reflexivity.
Defined.

(** The unrecognized question of section 8, evaluated. *)
Example scenario_hello :
  analyzeQuery (Some twoSponsors) "hello" = Some (Unknown guidance).
Proof. vm_compute. reflexivity. Qed.

End QuerySpec.

(* ================================================================= *)
(** ** Further properties of normalizeGeo and the loader *)

Module NormalizeExtra.
Import Js JsFacts Normalize NormalizeFacts NormalizeSpec Loader Idempotence.

(** An id the raw graph knows: listed as a node or used by a link. *)
Definition knownId (raw : RawGraph) (k : string) : Prop :=
  In k (map rn_id (nullish (rg_nodes raw) [])) \/ mentions (links_of raw) k.

(** Every endpoint of every link is a listed node. *)
Definition endpointsListed (raw : RawGraph) : Prop :=
  forall i, mentions (links_of raw) i -> In i (map rn_id (nullish (rg_nodes raw) [])).

(** No known id is spelled like a variant of a split id. *)
Definition noVariantClash (raw : RawGraph) : Prop :=
  forall k x, knownId raw k -> isSplit raw x = true ->
              k <> sponsorId x /\ k <> victimId x.

(** Listed, well-typed input without dangling or conflicting ids. *)
Definition tidy : RawGraph :=
  mkRawGraph
    (Some [ mkRawNode "S" (Some "sponsor") None; mkRawNode "A" (Some "actor") None;
            mkRawNode "V" (Some "victim") None ])
    (Some [ mkRawLink (PlainId "S") (PlainId "A") (Some 2%Z) (Some "sponsor_to_actor");
            mkRawLink (PlainId "A") (PlainId "V") None (Some "actor_to_victim") ]).

(** [tidy] with its two links swapped. *)
Definition tidySwapped : RawGraph :=
  mkRawGraph (rg_nodes tidy)
    (Some [ mkRawLink (PlainId "A") (PlainId "V") None (Some "actor_to_victim");
            mkRawLink (PlainId "S") (PlainId "A") (Some 2%Z) (Some "sponsor_to_actor") ]).

Lemma fold_base_keys (l : list RawNode) (m : JsMap RawNode) (k : string) :
  In k (map fst (fold_left (fun m n => map_set m (rn_id n) n) l m))
  <-> In k (map fst m) \/ In k (map rn_id l).
Proof.
  revert m. induction l as [|n l IH]; intros m; simpl; [tauto|].
  rewrite IH, map_keys_set. destruct (map_has m (rn_id n)) eqn:E.
  - apply map_has_In in E. split; [tauto | intros [H | [<- | H]]; tauto].
  - rewrite in_app_iff. simpl. intuition.
Qed.

Lemma nodesById_keys (raw : RawGraph) (k : string) :
  In k (map fst (nodesById raw)) <-> knownId raw k.
Proof.
  unfold nodesById, knownId, baseNodes. rewrite heal_keys, fold_base_keys.
  simpl. rewrite allNodeIds_In. unfold links_of. tauto.
Qed.

(** X1: the ids of the output nodes are exactly the ids the raw graph
    lists or mentions in a link, each replaced by its two variants when
    it is split. *)
Theorem output_ids (raw : RawGraph) (i : string) :
  In i (nodeIds (normalizeGeo raw)) <->
  exists k, knownId raw k /\
    (if isSplit raw k then i = sponsorId k \/ i = victimId k else i = k).
Proof.
  rewrite normalizeGeo_ids. unfold newNodes_of. rewrite newNodes_ids.
  split; intros [k [Hk H]]; exists k; (split; [now apply nodesById_keys | exact H]).
Qed.

(** *** Distinct output ids *)

Lemma length_append (a b : string) :
  String.length (String.append a b) = (String.length a + String.length b)%nat.
Proof. induction a as [|c a IH]; simpl; [reflexivity | now rewrite IH]. Qed.

Lemma append_inj (a b s t : string) :
  String.length s = String.length t ->
  String.append a s = String.append b t -> a = b /\ s = t.
Proof.
  revert b. induction a as [|c a IH]; intros [|d b] Hlen H; simpl in H.
  - auto.
  - exfalso. apply (f_equal String.length) in H. simpl in H.
    rewrite length_append in H. lia.
  - exfalso. apply (f_equal String.length) in H. simpl in H.
    rewrite length_append in H. lia.
  - injection H as -> H. destruct (IH b Hlen H) as [-> ->]. auto.
Qed.

Lemma sponsorId_inj (a b : string) : sponsorId a = sponsorId b -> a = b.
Proof. intros H. now apply (append_inj a b " [S]" " [S]"). Qed.

Lemma victimId_inj (a b : string) : victimId a = victimId b -> a = b.
Proof. intros H. now apply (append_inj a b " [T]" " [T]"). Qed.

Lemma sponsorId_not_victimId (a b : string) : sponsorId a <> victimId b.
Proof.
  intros H. destruct (append_inj a b " [S]" " [T]" eq_refl H) as [_ E].
  discriminate E.
Qed.

Lemma newNodes_NoDup (byId : JsMap RawNode) (nr : JsMap (list Role))
  (ns : list string) :
  NoDup (map fst byId) ->
  (forall k x, In k (map fst byId) -> set_has ns x = true ->
               k <> sponsorId x /\ k <> victimId x) ->
  NoDup (map n_id (newNodes byId nr ns)).
Proof.
  induction byId as [|[k n] byId IH]; intros Hnd Hcl; [constructor|].
  simpl in Hnd. apply NoDup_cons_iff in Hnd. destruct Hnd as [Hk Hnd].
  assert (IH' : NoDup (map n_id (newNodes byId nr ns))).
  { apply IH; [exact Hnd|]. intros k' x Hk' Hx. apply Hcl; [now right | exact Hx]. }
  assert (Fresh : forall i,
             (if set_has ns k then i = sponsorId k \/ i = victimId k else i = k) ->
             ~ In i (map n_id (newNodes byId nr ns))).
  { intros i Hi Hin. apply newNodes_ids in Hin. destruct Hin as [k' [Hk' Hi']].
    assert (Hne : k <> k') by (intros ->; contradiction).
    destruct (set_has ns k) eqn:Sk; destruct (set_has ns k') eqn:Sk'.
    - destruct Hi as [-> | ->], Hi' as [E | E].
      + now apply sponsorId_inj in E.
      + now apply sponsorId_not_victimId in E.
      + symmetry in E. now apply sponsorId_not_victimId in E.
      + now apply victimId_inj in E.
    - subst i. destruct (Hcl k' k (or_intror Hk') Sk) as [N1 N2].
      destruct Hi as [E | E]; [now apply N1 | now apply N2].
    - subst i. destruct (Hcl k k' (or_introl eq_refl) Sk') as [N1 N2].
      destruct Hi' as [E | E]; [now apply N1 | now apply N2].
    - congruence. }
  unfold newNodes in *. simpl flat_map. rewrite map_app.
  destruct (set_has ns k) eqn:Sk; simpl.
  - constructor.
    + intros [E | Hin]; [now apply (sponsorId_not_victimId k k) |].
      apply (Fresh (sponsorId k)); [now left | exact Hin].
    + constructor; [|exact IH'].
      apply (Fresh (victimId k)). now right.
  - constructor; [|exact IH']. now apply (Fresh k).
Qed.

(** X2: when no known id is spelled like a variant of a split id, the
    output node ids are pairwise distinct. *)
Theorem output_ids_distinct (raw : RawGraph) :
  noVariantClash raw -> NoDup (nodeIds (normalizeGeo raw)).
Proof.
  intros H. rewrite normalizeGeo_ids. unfold newNodes_of.
  apply newNodes_NoDup; [apply nodesById_NoDup|].
  intros k x Hk Hx. apply H; [now apply nodesById_keys | exact Hx].
Qed.

Lemma needsSplit_nil_isSplit (raw : RawGraph) :
  needsSplit_of raw = [] -> forall x, isSplit raw x = false.
Proof. intros H x. unfold isSplit. now rewrite H. Qed.

Lemma output_ids_distinct_witness : NoDup (nodeIds (normalizeGeo threeRoles)).
Proof.
  apply output_ids_distinct. intros k x Hk Hx.
  apply nodesById_keys in Hk. apply set_has_In in Hx.
  assert (Ex : needsSplit_of threeRoles = ["X"]) by (vm_compute; reflexivity).
  assert (Ek : map fst (nodesById threeRoles) = ["X"; "A"; "B"; "C"])
    by (vm_compute; reflexivity).
  rewrite Ex in Hx. rewrite Ek in Hk. destruct Hx as [<- | []].
  simpl in Hk. unfold sponsorId, victimId. simpl.
  destruct Hk as [<- | [<- | [<- | [<- | []]]]]; split; discriminate.
Defined.

(** *** The loader on the geographic network *)

Lemma output_type_nonempty (raw : RawGraph) (n : Node) :
  In n (nodes (normalizeGeo raw)) -> n_type n <> "".
Proof.
  intros Hn. rewrite normalizeGeo_eq in Hn. simpl in Hn.
  rewrite setDegrees_eq in Hn. apply in_map_iff in Hn.
  destruct Hn as [n0 [<- Hn0]]. simpl.
  destruct (newNodes_typeOrigin raw n0 Hn0) as [H | [_ [H _]]]; [|exact H].
  intros E. rewrite E in H. discriminate H.
Qed.

Lemma safe_asRaw (g : Graph) :
  (forall n, In n (nodes g) -> n_type n <> "") -> safe (asRaw g) = g.
Proof.
  intros H. destruct g as [ns ls]. unfold safe, asRaw. simpl in *.
  rewrite !map_map. f_equal.
  - apply map_fixed. intros [i t d] Hn. simpl.
    specialize (H _ Hn). simpl in H.
    destruct (String.eqb_spec t ""); [contradiction | reflexivity].
  - apply map_fixed. intros l _. apply canonLink_asRawLink.
Qed.

(** X3: for the geographic network, a document with at least one
    collection is loaded as exactly the normalized graph: the shape step
    after normalization changes nothing. *)
Theorem geo_loaded_as_normalized (r : RawGraph) :
  LoaderSpec.lacksBoth (Some r) = false ->
  onLoaded "geo" (Some r) = inr (normalizeGeo r).
Proof.
  unfold LoaderSpec.lacksBoth, onLoaded. intros H.
  assert (E : safe (asRaw (normalizeGeo r)) = normalizeGeo r)
    by (apply safe_asRaw, output_type_nonempty).
  destruct (rg_nodes r), (rg_links r); try discriminate H; simpl; now rewrite E.
Qed.

Lemma geo_loaded_as_normalized_witness :
  onLoaded "geo" (Some threeRoles) = inr (normalizeGeo threeRoles).
Proof. apply geo_loaded_as_normalized. reflexivity. Defined.

(** *** The order of the links *)

Lemma filter_length_perm (A : Type) (f : A -> bool) (l1 l2 : list A) :
  Permutation l1 l2 ->
  List.length (filter f l1) = List.length (filter f l2).
Proof.
  induction 1 as [|x l1 l2 _ IH|x y l|l1 l2 l3 _ IH1 _ IH2]; simpl.
  - reflexivity.
  - destruct (f x); simpl; congruence.
  - destruct (f x), (f y); reflexivity.
  - congruence.
Qed.

Lemma occurrences_perm (l1 l2 : list Link) (i : string) :
  Permutation l1 l2 -> occurrences l1 i = occurrences l2 i.
Proof.
  intros H. unfold occurrences.
  now rewrite (filter_length_perm _ H), (filter_length_perm _ H).
Qed.

Lemma mentions_perm (l1 l2 : list Link) (i : string) :
  Permutation l1 l2 -> mentions l1 i -> mentions l2 i.
Proof.
  intros H [l [Hl Hi]]. exists l. split; [|exact Hi].
  now apply (Permutation_in l H).
Qed.

Lemma endpointsListed_nodesById (raw : RawGraph) :
  endpointsListed raw -> nodesById raw = baseNodes raw.
Proof.
  intros H. unfold nodesById. apply heal_id. intros i Hi.
  apply allNodeIds_In in Hi. unfold baseNodes. apply fold_base_keys.
  right. now apply H.
Qed.

Section Reordered.
Variables raw1 raw2 : RawGraph.
Hypothesis same_nodes : rg_nodes raw1 = rg_nodes raw2.
Hypothesis reordered : Permutation (links_of raw1) (links_of raw2).

Lemma roles_reordered (i : string) (r : Role) :
  roles_has (rolesOf raw1 i) r = roles_has (rolesOf raw2 i) r.
Proof.
  apply eq_true_iff_eq. rewrite !rolesOf_has, !roleAt_old.
  split; intros [l [Hl H]]; exists l; (split; [|exact H]).
  - now apply (Permutation_in l reordered).
  - now apply (Permutation_in l (Permutation_sym reordered)).
Qed.

Lemma isSplit_reordered (i : string) : isSplit raw1 i = isSplit raw2 i.
Proof. now rewrite !isSplit_roles, !roles_reordered. Qed.

Lemma getNodeId_reordered (i : string) (r : Role) :
  getNodeId (needsSplit_of raw1) i r = getNodeId (needsSplit_of raw2) i r.
Proof.
  unfold getNodeId. fold (isSplit raw1 i). fold (isSplit raw2 i).
  now rewrite isSplit_reordered.
Qed.

Lemma newLinks_reordered : Permutation (newLinks_of raw1) (newLinks_of raw2).
Proof.
  unfold newLinks_of, newLinks, linkRoles_of, linkRoles. rewrite !map_map.
  rewrite (map_ext (fun l => rewire (needsSplit_of raw1) (classify l))
                   (fun l => rewire (needsSplit_of raw2) (classify l))).
  - now apply Permutation_map.
  - intros l. unfold rewire. now rewrite !getNodeId_reordered.
Qed.

Lemma newNodes_reordered :
  endpointsListed raw1 -> newNodes_of raw1 = newNodes_of raw2.
Proof.
  intros H1.
  assert (H2 : endpointsListed raw2).
  { intros i Hi. rewrite <- same_nodes. apply H1.
    now apply (mentions_perm (Permutation_sym reordered)). }
  unfold newNodes_of, newNodes.
  rewrite (endpointsListed_nodesById H1), (endpointsListed_nodesById H2).
  unfold baseNodes. rewrite same_nodes. apply flat_map_ext. intros [k n]. simpl.
  fold (isSplit raw1 k). fold (isSplit raw2 k). rewrite isSplit_reordered.
  rewrite !resolveType_getRoles.
  change (getRoles (nodeRoles_of raw1) k) with (rolesOf raw1 k).
  change (getRoles (nodeRoles_of raw2) k) with (rolesOf raw2 k).
  now rewrite !roles_reordered.
Qed.

Lemma normalizeGeo_reordered :
  (forall i, isSplit raw1 i = isSplit raw2 i)
  /\ (forall i r, roles_has (rolesOf raw1 i) r = roles_has (rolesOf raw2 i) r)
  /\ Permutation (links (normalizeGeo raw1)) (links (normalizeGeo raw2))
  /\ (endpointsListed raw1 ->
      nodes (normalizeGeo raw1) = nodes (normalizeGeo raw2)).
Proof.
  split; [exact isSplit_reordered|]. split; [exact roles_reordered|].
  rewrite !normalizeGeo_eq. simpl. split; [exact newLinks_reordered|].
  intros H. rewrite !setDegrees_eq, (newNodes_reordered H).
  apply map_ext. intros n. f_equal. apply occurrences_perm, newLinks_reordered.
Qed.
End Reordered.

(** X4: the order of the links does not matter.  For two raw graphs with
    the same node list whose canonical links are permutations of each
    other, every id has the same roles and the same split decision, the
    output links are permutations of each other, and when every endpoint
    is a listed node the output node lists (ids, types and degrees, in
    order) are equal. *)
Theorem link_order_irrelevant (raw1 raw2 : RawGraph) :
  rg_nodes raw1 = rg_nodes raw2 ->
  Permutation (links_of raw1) (links_of raw2) ->
  (forall i, isSplit raw1 i = isSplit raw2 i)
  /\ (forall i r, roles_has (rolesOf raw1 i) r = roles_has (rolesOf raw2 i) r)
  /\ Permutation (links (normalizeGeo raw1)) (links (normalizeGeo raw2))
  /\ (endpointsListed raw1 ->
      nodes (normalizeGeo raw1) = nodes (normalizeGeo raw2)).
Proof. intros Hn Hp. now apply normalizeGeo_reordered. Qed.

Lemma link_order_irrelevant_witness :
  nodes (normalizeGeo tidy) = nodes (normalizeGeo tidySwapped).
Proof.
  assert (Hp : Permutation (links_of tidy) (links_of tidySwapped)).
  { vm_compute. apply perm_swap. }
  apply (link_order_irrelevant tidy tidySwapped eq_refl Hp).
  intros i [l [Hl Hi]]. vm_compute in Hl.
  destruct Hl as [<- | [<- | []]]; simpl in Hi;
    destruct Hi as [<- | <-]; simpl; tauto.
Defined.

End NormalizeExtra.

(* ================================================================= *)
(** ** Tallies and top-n lists *)

Module TallyFacts.
Import Js JsFacts NormalizeFacts Query QueryFacts.

(** The tally loop shared by the three ranking queries: every selected
    link adds its weight (1 when missing or zero) under its key. *)
Definition aggregate (sel : RawLink -> bool) (keyOf : RawLink -> string)
  (ls : list RawLink) (obj : JsMap Z) : JsMap Z :=
  fold_left
    (fun obj l => if sel l then tally obj (keyOf l) (numOr (rl_weight l) 1) else obj)
    ls obj.

(** The total weight of the selected links filed under [k]. *)
Definition weightUnder (sel : RawLink -> bool) (keyOf : RawLink -> string)
  (ls : list RawLink) (k : string) : Z :=
  fold_right
    (fun l acc => if sel l && String.eqb (keyOf l) k
                  then (numOr (rl_weight l) 1 + acc)%Z else acc)
    0%Z ls.

Lemma fold_left_pointwise (A B : Type) (f g : A -> B -> A) (l : list B) (a : A) :
  (forall x y, f x y = g x y) -> fold_left f l a = fold_left g l a.
Proof.
  intros H. revert a. induction l as [|b l IH]; intros a; simpl; [reflexivity|].
  now rewrite H, IH.
Qed.

Section Aggregate.
Variable sel : RawLink -> bool.
Variable keyOf : RawLink -> string.

Lemma aggregate_NoDup (ls : list RawLink) (obj : JsMap Z) :
  NoDup (map fst obj) -> NoDup (map fst (aggregate sel keyOf ls obj)).
Proof.
  unfold aggregate. revert obj. induction ls as [|l ls IH]; intros obj H; simpl;
    [exact H|].
  apply IH. destruct (sel l); [|exact H]. unfold tally. now apply map_set_NoDup.
Qed.

Lemma aggregate_total (ls : list RawLink) (obj : JsMap Z) (k : string) :
  degOf (aggregate sel keyOf ls obj) k
  = (degOf obj k + weightUnder sel keyOf ls k)%Z.
Proof.
  unfold aggregate. revert obj. induction ls as [|l ls IH]; intros obj; simpl.
  - lia.
  - rewrite IH. destruct (sel l); simpl; [|lia].
    unfold degOf, tally. rewrite map_get_set.
    destruct (String.eqb_spec (keyOf l) k) as [->|Hn].
    + rewrite numOr_Some_0. lia.
    + lia.
Qed.

Lemma aggregate_keys (ls : list RawLink) (obj : JsMap Z) (k : string) :
  In k (map fst (aggregate sel keyOf ls obj))
  <-> In k (map fst obj) \/ exists l, In l ls /\ sel l = true /\ keyOf l = k.
Proof.
  unfold aggregate. revert obj. induction ls as [|l ls IH]; intros obj; simpl.
  - split; [auto | intros [H | [l [[] _]]]; exact H].
  - rewrite IH. destruct (sel l) eqn:E.
    + unfold tally. rewrite map_keys_set.
      destruct (map_has obj (keyOf l)) eqn:Hk.
      * apply map_has_In in Hk. split.
        -- intros [H | [l' [Hl' H]]]; [now left|]. right. exists l'. tauto.
        -- intros [H | [l' [[<- | Hl'] [Hs <-]]]]; [now left | now left |].
           right. exists l'. tauto.
      * rewrite in_app_iff. simpl. split.
        -- intros [[H | [<- | []]] | [l' [Hl' H]]]; [now left | |].
           ++ right. exists l. tauto.
           ++ right. exists l'. tauto.
        -- intros [H | [l' [[<- | Hl'] [Hs <-]]]]; [tauto | tauto |].
           right. exists l'. tauto.
    + split.
      * intros [H | [l' [Hl' H]]]; [now left|]. right. exists l'. tauto.
      * intros [H | [l' [[<- | Hl'] [Hs Hk]]]]; [now left | congruence |].
        right. exists l'. tauto.
Qed.

Lemma aggregate_entry (ls : list RawLink) (k : string) (v : Z) :
  In (k, v) (aggregate sel keyOf ls []) ->
  v = weightUnder sel keyOf ls k
  /\ exists l, In l ls /\ sel l = true /\ keyOf l = k.
Proof.
  intros H. split.
  - assert (G := aggregate_total ls [] k). unfold degOf at 1 in G.
    rewrite (map_get_NoDup _ _ _ (aggregate_NoDup ls [] (NoDup_nil _)) H) in G.
    rewrite numOr_Some_0 in G. rewrite G. unfold degOf. simpl. lia.
  - apply (in_map fst) in H. simpl in H. apply aggregate_keys in H.
    destruct H as [[] | H]. exact H.
Qed.
End Aggregate.

(** *** The first [n] of a descending sort *)

Section Top.
Variable A : Type.
Variable key : A -> Z.

Lemma descending_app (l1 l2 : list A) :
  descending key (l1 ++ l2) ->
  descending key l1
  /\ forall a b, In a l1 -> In b l2 -> (key b <= key a)%Z.
Proof.
  unfold descending. induction l1 as [|x l1 IH]; simpl; intros H.
  - split; [constructor | intros a b []].
  - apply StronglySorted_inv in H. destruct H as [Hs Hx].
    destruct (IH Hs) as [Hd Hc]. split.
    + constructor; [exact Hd|]. apply Forall_forall. intros y Hy.
      apply (proj1 (Forall_forall _ _) Hx). apply in_or_app. now left.
    + intros a b [<- | Ha] Hb.
      * apply (proj1 (Forall_forall _ _) Hx). apply in_or_app. now right.
      * now apply Hc.
Qed.

Lemma firstn_sortDesc (n : nat) (l : list A) :
  descending key (firstn n (sortDesc key l))
  /\ (List.length (firstn n (sortDesc key l)) <= n)%nat
  /\ (forall a, In a (firstn n (sortDesc key l)) -> In a l)
  /\ (forall a b, In a (firstn n (sortDesc key l)) ->
                  In b (skipn n (sortDesc key l)) -> (key b <= key a)%Z)
  /\ Permutation l (firstn n (sortDesc key l) ++ skipn n (sortDesc key l)).
Proof.
  assert (S := sortDesc_descending key l).
  rewrite <- (firstn_skipn n (sortDesc key l)) in S.
  destruct (descending_app _ _ S) as [Hd Hc].
  split; [exact Hd|]. split; [apply firstn_le_length|].
  split.
  { intros a Ha. apply (sortDesc_In key).
    rewrite <- (firstn_skipn n (sortDesc key l)). apply in_or_app. now left. }
  split; [exact Hc|].
  rewrite firstn_skipn. symmetry. apply sortDesc_perm.
Qed.
End Top.

Lemma descending_map (A B : Type) (f : A -> B) (keyA : A -> Z) (keyB : B -> Z)
  (l : list A) :
  (forall a, keyB (f a) = keyA a) ->
  descending keyA l -> descending keyB (map f l).
Proof.
  intros E. unfold descending. induction 1 as [|x l Hs IH Hx]; simpl; constructor.
  - exact IH.
  - apply Forall_forall. intros b Hb. apply in_map_iff in Hb.
    destruct Hb as [a [<- Ha]]. rewrite !E.
    exact (proj1 (Forall_forall _ _) Hx a Ha).
Qed.

Lemma NoDup_firstn (A : Type) (n : nat) (l : list A) :
  NoDup l -> NoDup (firstn n l).
Proof.
  intros H. rewrite <- (firstn_skipn n l) in H.
  exact (NoDup_app_remove_r _ _ H).
Qed.

(** What [top n obj] guarantees about an object with distinct keys. *)
Definition ranked (n : nat) (obj : JsMap Z) (rs : list NameCount) : Prop :=
  (List.length rs <= n)%nat
  /\ (List.length rs = Nat.min n (List.length obj))
  /\ descending nc_count rs
  /\ NoDup (map nc_name rs)
  /\ (forall e, In e rs -> In (nc_name e, nc_count e) obj)
  /\ (forall k v e, In (k, v) obj -> ~ In k (map nc_name rs) ->
                    In e rs -> (v <= nc_count e)%Z).

Lemma top_ranked (n : nat) (obj : JsMap Z) :
  NoDup (map fst obj) -> ranked n obj (top n obj).
Proof.
  intros Hnd. unfold ranked, top.
  destruct (firstn_sortDesc snd n obj) as [Hd [Hlen [Hin [Hcut Hperm]]]].
  rewrite length_map. split; [exact Hlen|].
  split; [now rewrite length_firstn, sortDesc_length|].
  split; [apply (@descending_map _ _ _ snd nc_count); [reflexivity | exact Hd]|].
  rewrite map_map. simpl.
  split.
  { change (fun x : string * Z => fst x) with (@fst string Z).
    rewrite <- firstn_map. apply NoDup_firstn.
    apply (Permutation_NoDup (l := map fst obj)); [|exact Hnd].
    apply Permutation_map. symmetry. apply sortDesc_perm. }
  split.
  { intros e He. apply in_map_iff in He. destruct He as [[k v] [<- He]].
    simpl. now apply Hin. }
  intros k v e Hkv Hk He. apply in_map_iff in He.
  destruct He as [[k' v'] [<- He]]. simpl.
  apply (Hcut (k', v') (k, v) He).
  apply (Permutation_in _ Hperm) in Hkv. apply in_app_or in Hkv.
  destruct Hkv as [H | H]; [|exact H].
  exfalso. apply Hk. apply in_map_iff. exists (k, v). split; [reflexivity|].
  exact H.
Qed.

End TallyFacts.

(* ================================================================= *)
(** ** Further properties of analyzeQuery *)

Module QueryExtra.
Import Js JsFacts NormalizeFacts Query QueryFacts QuerySpec TallyFacts.

Definition keyTarget (l : RawLink) : string := endpointId (rl_target l).
Definition keySource (l : RawLink) : string := endpointId (rl_source l).

(** The link filter of most_targeted. *)
Definition selTargeted (l : RawLink) : bool :=
  includes (toLowerCase (strOr (rl_type l) "")) "victim"
  || includes (toLowerCase (strOr (rl_type l) "")) "target".

(** The link filter of most_active: the first node carrying the source id
    has the wanted type. *)
Definition selActive (data : QueryData) (category : string) (l : RawLink) : bool :=
  match find (fun n => String.eqb (n_id n) (keySource l)) (d_nodes data) with
  | Some sourceNode => String.eqb (n_type sourceNode) category
  | None => false
  end.

(** The link filter of country_targets. *)
Definition selCountry (sponsorName : SponsorName) (country : string) (l : RawLink)
  : bool :=
  match sponsorName with
  | Named s => String.eqb (keySource l) s
  | _ => false
  end
  || (negb (String.eqb (keySource l) "")
      && includes (toLowerCase (keySource l)) (toLowerCase country)).

(** [countryVariations[country.toLowerCase()] || country] *)
Definition sponsorNameOf (cap : string) : SponsorName :=
  match countryVariations (toLowerCase (trim cap)) with
  | Some v => v
  | None => Named (trim cap)
  end.

(** A ranking of at most [n] keys by the total weight of the selected
    links: what each of the three ranking answers guarantees. *)
Definition rankingOf (n : nat) (sel : RawLink -> bool) (keyOf : RawLink -> string)
  (ls : list RawLink) (rs : list NameCount) : Prop :=
  (List.length rs <= n)%nat
  /\ descending nc_count rs
  /\ NoDup (map nc_name rs)
  /\ (forall e, In e rs ->
        nc_count e = weightUnder sel keyOf ls (nc_name e)
        /\ exists l, In l ls /\ sel l = true /\ keyOf l = nc_name e)
  /\ (forall k l, In l ls -> sel l = true -> keyOf l = k ->
        ~ In k (map nc_name rs) ->
        List.length rs = n
        /\ forall e, In e rs -> (weightUnder sel keyOf ls k <= nc_count e)%Z).

(** The names that every plain object inherits from Object.prototype:
    under such a key a fresh dictionary already reads as an object. *)
Definition prototypeNames : list string :=
  [ "constructor"; "hasOwnProperty"; "isPrototypeOf"; "propertyIsEnumerable";
    "toLocaleString"; "toString"; "valueOf"; "__proto__";
    "__defineGetter__"; "__defineSetter__"; "__lookupGetter__"; "__lookupSetter__" ].

Definition isDigit (c : ascii) : bool :=
  let n := nat_of_ascii c in ((48 <=? n) && (n <=? 57))%nat.

Fixpoint allDigits (s : string) : bool :=
  match s with
  | EmptyString => true
  | String c s' => isDigit c && allDigits s'
  end.

(** A canonical decimal integer; [Object.entries] lists such keys before
    the others, in numeric order. *)
Definition isIntegerKey (s : string) : bool :=
  match s with
  | EmptyString => false
  | String c s' =>
      allDigits s && (negb (Ascii.eqb c "0"%char) || String.eqb s' "")
  end.

(** A key under which a plain object behaves like a map in insertion
    order. *)
Definition ordinaryKey (k : string) : bool :=
  negb (existsb (String.eqb k) prototypeNames) && negb (isIntegerKey k).

(** The total magnitude of the weights a tally may add. *)
Definition weightMass (ls : list RawLink) : Z :=
  fold_right (fun l acc => (Z.abs (numOr (rl_weight l) 1) + acc)%Z) 0%Z ls.

(** The data on which a tally keyed by [keyOf] computes what the
    association-list reading says: every key is ordinary, and the integer
    weights are small enough for all sums to be exact in double
    precision. *)
Definition plainTally (keyOf : RawLink -> string) (data : QueryData) : bool :=
  forallb (fun l => ordinaryKey (keyOf l)) (d_links data)
  && (weightMass (d_links data) <=? 2 ^ 53)%Z.

Example ordinaryKey_samples :
  map ordinaryKey [ "APT1"; "Bank"; "010"; "constructor"; "__proto__"; "10"; "0" ]
  = [ true; true; true; false; false; false; false ].
Proof. vm_compute. reflexivity. Qed.

Definition incidents : QueryData :=
  mkQueryData
    [ mkNode "China" "sponsor" 2; mkNode "APT1" "actor" 3;
      mkNode "Bank" "victim" 2; mkNode "Grid" "victim" 1 ]
    [ mkRawLink (PlainId "China") (PlainId "APT1") (Some 2%Z) (Some "sponsor_to_actor");
      mkRawLink (NodeObj "APT1") (PlainId "Bank") (Some 3%Z) (Some "actor_to_victim");
      mkRawLink (PlainId "APT1") (NodeObj "Grid") None (Some "actor_to_victim");
      mkRawLink (PlainId "China") (PlainId "Bank") (Some 4%Z) (Some "sponsor_to_victim") ].

Lemma aggregate_ranking (n : nat) (sel : RawLink -> bool)
  (keyOf : RawLink -> string) (ls : list RawLink) :
  rankingOf n sel keyOf ls (top n (aggregate sel keyOf ls [])).
Proof.
  set (obj := aggregate sel keyOf ls []).
  assert (Hnd : NoDup (map fst obj)) by (apply aggregate_NoDup; constructor).
  destruct (@top_ranked n obj Hnd) as [Hlen [Hmin [Hd [Hn [Hin Hcut]]]]].
  unfold rankingOf. split; [exact Hlen|]. split; [exact Hd|]. split; [exact Hn|].
  split.
  { intros e He. apply (aggregate_entry sel keyOf ls), Hin, He. }
  intros k l Hl Hs Hk Hout.
  assert (Hkey : In k (map fst obj)).
  { apply aggregate_keys. right. exists l. auto. }
  apply in_map_iff in Hkey. destruct Hkey as [[k' v] [Ek Hkv]]. simpl in Ek. subst k'.
  split.
  - destruct (Nat.min_spec n (List.length obj)) as [[_ E] | [Hle E]];
      rewrite E in Hmin; [exact Hmin|].
    exfalso. apply Hout.
    assert (Incl : incl (map fst obj) (map nc_name (top n obj))).
    { apply NoDup_length_incl; [exact Hn | rewrite !length_map; lia |].
      intros x Hx. apply in_map_iff in Hx. destruct Hx as [e [<- He]].
      exact (in_map fst _ _ (Hin e He)). }
    apply Incl. apply in_map_iff. exists (k, v). auto.
  - intros e He.
    destruct (aggregate_entry sel keyOf ls k v Hkv) as [<- _].
    now apply (Hcut k v e).
Qed.

Lemma mostTargeted_eq (data : QueryData) :
  mostTargeted data
  = MostTargeted (top 15 (aggregate selTargeted keyTarget (d_links data) [])).
Proof. reflexivity. Qed.

Lemma mostActive_eq (data : QueryData) (q : string) :
  mostActive data q
  = let category := if includes q "sponsor" then "sponsor" else "actor" in
    MostActive category
      (top 15 (aggregate (selActive data category) keySource (d_links data) [])).
Proof.
  unfold mostActive, aggregate. simpl. f_equal. f_equal.
  apply fold_left_pointwise. intros obj l. unfold selActive, keySource.
  destruct (find _ (d_nodes data)) as [n|]; reflexivity.
Qed.

Lemma countryTargets_eq (data : QueryData) (cap : string) :
  countryTargets data cap
  = CountryTargets (sponsorNameOf cap)
      (top 10 (aggregate (selCountry (sponsorNameOf cap) (trim cap)) keyTarget
                         (d_links data) [])).
Proof. reflexivity. Qed.

(** Which branch produced an answer. *)
Lemma analyzeQuery_cases (data : QueryData) (queryText : string) (r : Result) :
  analyzeQuery (Some data) queryText = Some r ->
  let q := toLowerCase queryText in
  (isMultipleSponsors q = true /\ r = multipleSponsors data)
  \/ (isMultipleSponsors q = false
      /\ exists cap, countryMatch q = Some cap /\ includes q "target" = true
                     /\ r = countryTargets data cap)
  \/ (isMultipleSponsors q = false /\ isCountryTargets q = false
      /\ ((isMostTargeted q = true /\ r = mostTargeted data)
          \/ (isMostTargeted q = false /\ isMostActive q = true
              /\ r = mostActive data q)
          \/ (isMostTargeted q = false /\ isMostActive q = false
              /\ r = Unknown guidance))).
Proof.
  unfold analyzeQuery, isMultipleSponsors, isCountryTargets, isMostTargeted,
    isMostActive. simpl.
  set (q := toLowerCase queryText).
  destruct (includes q "multiple" && (includes q "sponsor" || includes q "backed")).
  { intros [= <-]. left. auto. }
  assert (Rest : forall r',
             Some (if includes q "most targeted" then mostTargeted data
                   else if includes q "most active"
                           && (includes q "sponsor" || includes q "actor")
                   then mostActive data q else Unknown guidance) = Some r' ->
             (includes q "most targeted" = true /\ r' = mostTargeted data)
             \/ (includes q "most targeted" = false
                 /\ includes q "most active"
                    && (includes q "sponsor" || includes q "actor") = true
                 /\ r' = mostActive data q)
             \/ (includes q "most targeted" = false
                 /\ includes q "most active"
                    && (includes q "sponsor" || includes q "actor") = false
                 /\ r' = Unknown guidance)).
  { intros r'. destruct (includes q "most targeted"); [intros [= <-]; auto|].
    destruct (includes q "most active" && (includes q "sponsor" || includes q "actor"));
      intros [= <-]; auto. }
  destruct (countryMatch q) as [cap|].
  - destruct (includes q "target").
    + intros [= <-]. right. left. split; [reflexivity|]. exists cap. auto.
    + intros H. right. right. split; [reflexivity|]. split; [reflexivity|].
      exact (Rest r H).
  - intros H. right. right. split; [reflexivity|]. split; [reflexivity|].
    exact (Rest r H).
Qed.

(** X5: on data whose target ids are ordinary keys and whose weights
    total at most 2^53 in magnitude, a most_targeted answer lists at most
    15 distinct targets in descending order of count; each count is the
    total weight (1 for a missing or zero weight) of the links into that
    target whose lower-cased type contains "victim" or "target"; a target
    of such a link is left out only when the list is full and its total
    exceeds no listed count. *)
Theorem most_targeted_ranking (data : QueryData) (queryText : string)
  (results : list NameCount) :
  plainTally keyTarget data = true ->
  analyzeQuery (Some data) queryText = Some (MostTargeted results) ->
  rankingOf 15 selTargeted keyTarget (d_links data) results.
Proof.
  intros _ H. apply analyzeQuery_cases in H.
  destruct H as [[_ H] | [[_ [cap [_ [_ H]]]] | [_ [_ [[_ H] | [[_ [_ H]] | [_ [_ H]]]]]]]];
    try discriminate H.
  rewrite mostTargeted_eq in H. injection H as ->. apply aggregate_ranking.
Qed.

Lemma most_targeted_ranking_witness :
  rankingOf 15 selTargeted keyTarget (d_links incidents)
    [ mkNameCount "Bank" 7; mkNameCount "Grid" 1 ].
Proof.
  apply (most_targeted_ranking incidents "Most targeted sectors").
  - vm_compute. reflexivity.
  - vm_compute. reflexivity.
Defined.

(** X6: on data whose source ids are ordinary keys and whose weights
    total at most 2^53 in magnitude, a most_active answer has category
    sponsor when the lower-cased question contains "sponsor" and actor
    otherwise; it lists at most 15 distinct source ids in descending order
    of count; each listed id belongs to a node whose first record with that
    id has the category as type, and its count is the total weight of the
    links leaving it. *)
Theorem most_active_ranking (data : QueryData) (queryText : string)
  (category : string) (results : list NameCount) :
  plainTally keySource data = true ->
  analyzeQuery (Some data) queryText = Some (MostActive category results) ->
  category = (if includes (toLowerCase queryText) "sponsor" then "sponsor" else "actor")
  /\ rankingOf 15 (selActive data category) keySource (d_links data) results
  /\ forall e, In e results ->
       exists n, find (fun n => String.eqb (n_id n) (nc_name e)) (d_nodes data) = Some n
                 /\ n_type n = category.
Proof.
  intros _ H. apply analyzeQuery_cases in H.
  destruct H as [[_ H] | [[_ [cap [_ [_ H]]]] | [_ [_ [[_ H] | [[_ [_ H]] | [_ [_ H]]]]]]]];
    try discriminate H.
  rewrite mostActive_eq in H. simpl in H. injection H as -> ->.
  split; [reflexivity|].
  assert (R := aggregate_ranking 15
                 (selActive data (if includes (toLowerCase queryText) "sponsor"
                                  then "sponsor" else "actor"))
                 keySource (d_links data)).
  split; [exact R|].
  intros e He. destruct R as [_ [_ [_ [Hin _]]]].
  destruct (Hin e He) as [_ [l [_ [Hs Hk]]]]. unfold selActive in Hs.
  rewrite Hk in Hs.
  destruct (find _ (d_nodes data)) as [n|]; [|discriminate Hs].
  exists n. split; [reflexivity | now apply String.eqb_eq].
Qed.

Lemma most_active_ranking_witness :
  rankingOf 15 (selActive incidents "sponsor") keySource (d_links incidents)
    [ mkNameCount "China" 6 ].
Proof.
  apply (most_active_ranking incidents "most active sponsors").
  - vm_compute. reflexivity.
  - vm_compute. reflexivity.
Defined.

(** X7: on data whose target ids are ordinary keys and whose weights
    total at most 2^53 in magnitude, a country_targets answer names the
    sponsor resolved from the captured country and lists at most 10
    distinct targets in descending order of count; each count is the total
    weight of the links whose source equals that sponsor name or, when
    non-empty, contains the country case-insensitively. *)
Theorem country_targets_ranking (data : QueryData) (queryText : string)
  (sp : SponsorName) (results : list NameCount) :
  plainTally keyTarget data = true ->
  analyzeQuery (Some data) queryText = Some (CountryTargets sp results) ->
  exists cap,
    countryMatch (toLowerCase queryText) = Some cap
    /\ sp = sponsorNameOf cap
    /\ rankingOf 10 (selCountry sp (trim cap)) keyTarget (d_links data) results.
Proof.
  intros _ H. apply analyzeQuery_cases in H.
  destruct H as [[_ H] | [[_ [cap [Hc [_ H]]]] | [_ [_ [[_ H] | [[_ [_ H]] | [_ [_ H]]]]]]]];
    try discriminate H.
  rewrite countryTargets_eq in H. injection H as -> ->.
  exists cap. split; [exact Hc|]. split; [reflexivity|]. apply aggregate_ranking.
Qed.

Lemma country_targets_ranking_witness :
  exists cap,
    countryMatch (toLowerCase "What does China target most?") = Some cap
    /\ Named "China" = sponsorNameOf cap
    /\ rankingOf 10 (selCountry (Named "China") (trim cap)) keyTarget
         (d_links incidents) [ mkNameCount "Bank" 4; mkNameCount "APT1" 2 ].
Proof.
  apply (country_targets_ranking incidents "What does China target most?").
  - vm_compute. reflexivity.
  - vm_compute. reflexivity.
Defined.

(** *** Country questions *)

Lemma toLowerCase_char_idem (c : ascii) :
  toLowerCase_char (toLowerCase_char c) = toLowerCase_char c.
Proof.
  destruct c as [[] [] [] [] [] [] [] []]; vm_compute; reflexivity.
Qed.

Lemma toLowerCase_idem (s : string) : toLowerCase (toLowerCase s) = toLowerCase s.
Proof.
  induction s as [|c s IH]; simpl; [reflexivity|].
  now rewrite toLowerCase_char_idem, IH.
Qed.

Lemma prefixCi_capture (t s : string) :
  toLowerCase s = s -> prefixCi t s = true ->
  String.substring 0 (String.length t) s = t.
Proof.
  revert s. induction t as [|a t IH]; intros [|c s] Hs H; simpl in *;
    try reflexivity; try discriminate H.
  injection Hs as Hc Hs. apply andb_true_iff in H. destruct H as [Ha Ht].
  unfold eqCi in Ha. rewrite Hc in Ha. apply Ascii.eqb_eq in Ha. subst c.
  now rewrite (IH s Hs Ht).
Qed.

Lemma matchCountry_unfold (s : string) :
  matchCountry s
  = match matchCountryAt s with
    | Some cap => Some cap
    | None => match s with
              | EmptyString => None
              | String _ s' => matchCountry s'
              end
    end.
Proof. destruct s; reflexivity. Qed.

Lemma matchCountry_token (s cap : string) :
  toLowerCase s = s -> matchCountry s = Some cap -> In cap countryTokens.
Proof.
  induction s as [|c s IH]; intros Hs H.
  - vm_compute in H. discriminate H.
  - rewrite matchCountry_unfold in H. unfold matchCountryAt in H.
    destruct (find (fun t => prefixCi t (String c s)) countryTokens) as [t|] eqn:F.
    + injection H as <-. apply find_some in F. destruct F as [Hin Hp].
      change (In (String.substring 0 (String.length t) (String c s)) countryTokens).
      now rewrite (@prefixCi_capture t (String c s) Hs Hp).
    + injection Hs as _ Hs. now apply IH.
Qed.

(** X8: when the question is answered as country_targets without
    matching the phrasing "what does X target", the sponsor shown is one
    of China, Russian Federation, Iran (Islamic Republic of) and the bare
    token korea: the fallback pattern never reaches the table entry for
    north korea. *)
Theorem fallback_sponsor_names (data : QueryData) (queryText : string)
  (sp : SponsorName) (results : list NameCount) :
  analyzeQuery (Some data) queryText = Some (CountryTargets sp results) ->
  matchWhat (toLowerCase queryText) = None ->
  In sp [ Named "China"; Named "Russian Federation";
          Named "Iran (Islamic Republic of)"; Named "korea" ].
Proof.
  intros H Hw. apply analyzeQuery_cases in H.
  destruct H as [[_ H] | [[_ [cap [Hc [_ H]]]] | [_ [_ [[_ H] | [[_ [_ H]] | [_ [_ H]]]]]]]];
    try discriminate H.
  rewrite countryTargets_eq in H. injection H as -> _.
  unfold countryMatch in Hc. rewrite Hw in Hc.
  apply matchCountry_token in Hc; [|apply toLowerCase_idem].
  unfold countryTokens in Hc. simpl in Hc.
  destruct Hc as [<- | [<- | [<- | [<- | []]]]]; vm_compute; tauto.
Qed.

Lemma fallback_sponsor_names_witness :
  In (Named "korea")
     [ Named "China"; Named "Russian Federation";
       Named "Iran (Islamic Republic of)"; Named "korea" ].
Proof.
  apply (fallback_sponsor_names incidents "North Korea targets" (results := [])).
  - vm_compute. reflexivity.
  - vm_compute. reflexivity.
Defined.

Lemma append_assoc (a b c : string) :
  String.append (String.append a b) c = String.append a (String.append b c).
Proof. induction a as [|x a IH]; simpl; [reflexivity | now rewrite IH]. Qed.

Lemma prefix_iff (p s : string) :
  String.prefix p s = true <-> exists b, s = String.append p b.
Proof.
  revert p. induction s as [|c s IH]; intros [|a p]; simpl.
  - split; [exists EmptyString; reflexivity | reflexivity].
  - split; [discriminate | intros [b H]; discriminate H].
  - split; [exists (String c s); reflexivity | reflexivity].
  - destruct (ascii_dec a c) as [->|Hn].
    + rewrite IH. split; intros [b H]; exists b; [now rewrite H | now injection H].
    + split; [discriminate | intros [b H]; injection H as H _; congruence].
Qed.

Lemma includes_iff (s p : string) :
  includes s p = true
  <-> exists a b, s = String.append a (String.append p b).
Proof.
  split.
  - induction s as [|c s IH]; rewrite includes_unfold, orb_true_iff.
    + intros [H | H]; [|discriminate]. apply prefix_iff in H.
      destruct H as [b H]. exists EmptyString, b. exact H.
    + intros [H | H].
      * apply prefix_iff in H. destruct H as [b H]. exists EmptyString, b. exact H.
      * destruct (IH H) as [a [b E]]. exists (String c a), b. simpl. now rewrite E.
  - intros [a [b E]]. revert s E. induction a as [|x a IH]; intros s E;
      rewrite includes_unfold, orb_true_iff.
    + left. apply prefix_iff. exists b. exact E.
    + right. simpl in E. subst s. now apply IH.
Qed.

Lemma includes_trans (s p p' : string) :
  includes s p = true -> includes p p' = true -> includes s p' = true.
Proof.
  rewrite !includes_iff. intros [a [b ->]] [a' [b' ->]].
  exists (String.append a a'), (String.append b' b).
  now rewrite !append_assoc.
Qed.

(** X9: "most targeted" itself contains "target", so a question that
    says "most targeted" and also matches a country pattern is answered as
    country_targets, never as most_targeted. *)
Theorem country_shadows_most_targeted (data : QueryData) (queryText : string)
  (cap : string) :
  isMultipleSponsors (toLowerCase queryText) = false ->
  includes (toLowerCase queryText) "most targeted" = true ->
  countryMatch (toLowerCase queryText) = Some cap ->
  analyzeQuery (Some data) queryText = Some (countryTargets data cap)
  /\ resultType (countryTargets data cap) = "country_targets".
Proof.
  intros Hm Ht Hc. split; [|reflexivity].
  assert (T : includes (toLowerCase queryText) "target" = true).
  { apply (includes_trans _ _ _ Ht). vm_compute. reflexivity. }
  unfold analyzeQuery. unfold isMultipleSponsors in Hm. rewrite Hm, Hc, T.
  reflexivity.
Qed.

Lemma country_shadows_most_targeted_witness :
  analyzeQuery (Some incidents) "Most targeted sectors in China"
  = Some (countryTargets incidents "china")
  /\ resultType (countryTargets incidents "china") = "country_targets".
Proof.
  apply country_shadows_most_targeted; vm_compute; reflexivity.
Defined.




End QueryExtra.

(* ================================================================= *)
(** ** Search, highlighting and labels of the network view *)

Module View.
Import Js Query.

(** The live-search effect: the list handed to [setSearchResults]. *)
Definition searchResults (data : option QueryData) (searchTerm : string)
  : list Node :=
  match data with
  | None => []
  | Some data =>
      if String.eqb searchTerm "" then []
      else
        let term := toLowerCase searchTerm in
        firstn 12 (filter (fun n => includes (toLowerCase (n_id n)) term)
                          (d_nodes data))
  end.

(** [highlightConnections]: the ids collected from the links at [sel]. *)
Definition neighborIds (data : QueryData) (sel : Node) : list string :=
  fold_left
    (fun acc l =>
       let s := endpointId (rl_source l) in
       let t := endpointId (rl_target l) in
       if String.eqb s (n_id sel) || String.eqb t (n_id sel)
       then set_add (set_add acc s) t else acc)
    (d_links data) [].

(** The test that gives a node (and its label) full opacity. *)
Definition nodeLit (data : QueryData) (sel d : Node) : bool :=
  String.eqb (n_id d) (n_id sel) || set_has (neighborIds data sel) (n_id d).

(** The test that gives a link the strong stroke. *)
Definition linkLit (sel : Node) (l : RawLink) : bool :=
  String.eqb (endpointId (rl_source l)) (n_id sel)
  || String.eqb (endpointId (rl_target l)) (n_id sel).

(** [applyLiveSearch]: matched ids, their neighbours, and both together. *)
Definition matchIds (results : list Node) : list string :=
  set_of (map n_id results).

Definition liveNeighborIds (data : QueryData) (results : list Node) : list string :=
  fold_left
    (fun acc l =>
       let s := endpointId (rl_source l) in
       let t := endpointId (rl_target l) in
       if set_has (matchIds results) s || set_has (matchIds results) t
       then set_add (set_add acc s) t else acc)
    (d_links data) [].

Definition keep (data : QueryData) (results : list Node) : list string :=
  set_of (matchIds results ++ liveNeighborIds data results).

Definition nodeKept (data : QueryData) (results : list Node) (d : Node) : bool :=
  set_has (keep data results) (n_id d).

Definition linkKept (data : QueryData) (results : list Node) (l : RawLink) : bool :=
  set_has (keep data results) (endpointId (rl_source l))
  && set_has (keep data results) (endpointId (rl_target l)).

(** The nodes that get a text label. *)
Definition topNodes (data : QueryData) : list Node :=
  firstn 16 (sortDesc n_degree (d_nodes data)).

(** [name.length > 28 ? name.slice(0, 28) + ellipsis : name]; the
    ellipsis character lies outside the modelled alphabet and is a
    parameter. *)
Definition clip28 (ellipsis name : string) : string :=
  if (28 <? String.length name)%nat
  then String.append (String.substring 0 28 name) ellipsis
  else name.

End View.

(* ================================================================= *)
(** ** The node detail panel *)

Module Panel.
Import Js Query View.

(** One entry of the details document.  The document and its count
    tables are plain objects, read as association lists in insertion
    order like the tallies of the queries. *)
Record Details := mkDetails {
  dt_targets : option (JsMap Z);
  dt_sources : option (JsMap Z);
  dt_actors : option (JsMap Z);
  dt_total_incidents : option Z
}.

(** [\s*\[(S|T)\]$] with the [i] flag, anchored at the head of [s]. *)
Definition tagAt (s : string) : bool :=
  match trimStart s with
  | String a (String c (String b EmptyString)) =>
      Ascii.eqb a "["%char && (eqCi "s"%char c || eqCi "t"%char c)
      && Ascii.eqb b "]"%char
  | _ => false
  end.

(** [String(id).replace(/\s*\[(S|T)\]$/i, '')]: the leftmost match is
    removed. *)
Fixpoint stripTag (s : string) : string :=
  if tagAt s then EmptyString
  else match s with
       | EmptyString => EmptyString
       | String c s' => String c (stripTag s')
       end.

(** [data[key] || data[node.id] || null] *)
Definition foundDetails (data : JsMap Details) (node : Node) : option Details :=
  match map_get data (stripTag (n_id node)) with
  | Some d => Some d
  | None => map_get data (n_id node)
  end.

Definition kvToSortedArr (ellipsis : string) (obj : option (JsMap Z))
  : list NameCount :=
  match obj with
  | None => []
  | Some o =>
      map (fun e => mkNameCount (clip28 ellipsis (fst e)) (snd e))
          (firstn 10 (sortDesc snd o))
  end.

Record ChartData := mkChartData {
  chart1 : list NameCount;
  chart1Label : option string;
  chart2 : list NameCount;
  chart2Label : option string
}.

Definition getChartData (ellipsis : string) (details : option Details)
  (node : Node) : ChartData :=
  match details with
  | None => mkChartData [] None [] None
  | Some details =>
      if String.eqb (n_type node) "sponsor" then
        mkChartData (kvToSortedArr ellipsis (dt_targets details))
                    (Some "THREAT ACTORS SPONSORED")
                    (kvToSortedArr ellipsis (dt_sources details))
                    (Some "ALSO BACKED BY")
      else if String.eqb (n_type node) "actor" then
        mkChartData (kvToSortedArr ellipsis (dt_targets details))
                    (Some "TOP TARGETS ATTACKED")
                    (kvToSortedArr ellipsis (dt_sources details))
                    (Some "SPONSORED BY")
      else if String.eqb (n_type node) "victim" then
        mkChartData (kvToSortedArr ellipsis (dt_sources details))
                    (Some "ATTACKED BY")
                    (kvToSortedArr ellipsis
                       (Some (nullish (dt_actors details) [])))
                    (Some "THREAT ACTORS USED")
      else
        mkChartData (kvToSortedArr ellipsis (dt_targets details))
                    (Some "RELATED ENTITIES")
                    (kvToSortedArr ellipsis (dt_sources details))
                    (Some "CONNECTED TO")
  end.

(** The longest name over the data sets; missing and empty sets are
    skipped. *)
Definition maxLen (datasets : option (list (option (list NameCount)))) : Z :=
  fold_left
    (fun m arr =>
       match arr with
       | None => m
       | Some a =>
           if (List.length a =? 0)%nat then m
           else
             let ml :=
               fold_left
                 (fun mm it =>
                    Z.max mm (Z.of_nat (String.length (strOr (Some (nc_name it)) ""))))
                 a 0%Z in
             Z.max m ml
       end)
    (nullish datasets []) 0%Z.

(** [Math.min(160, Math.max(75, Math.round(maxLen * 7)))]; the product of
    two integers is its own rounding. *)
Definition getYAxisWidth (datasets : option (list (option (list NameCount)))) : Z :=
  Z.min 160 (Z.max 75 (maxLen datasets * 7)).

End Panel.

(* ================================================================= *)
(** ** Properties of search, highlighting and labels *)

Module ViewSpec.
Import Js JsFacts Query QueryFacts TallyFacts QueryExtra View.

Definition sourceOf (l : RawLink) : string := endpointId (rl_source l).
Definition targetOf (l : RawLink) : string := endpointId (rl_target l).

(** Some link joins the two ids, in either direction. *)
Definition adjacent (data : QueryData) (a b : string) : Prop :=
  exists l, In l (d_links data)
            /\ ((sourceOf l = a /\ targetOf l = b)
                \/ (targetOf l = a /\ sourceOf l = b)).

Definition isMatch (results : list Node) (x : string) : Prop :=
  exists n, In n results /\ n_id n = x.

(** The filter of the live search. *)
Definition matchesTerm (searchTerm : string) (n : Node) : bool :=
  includes (toLowerCase (n_id n)) (toLowerCase searchTerm).

Lemma fold_collect_In (cond : RawLink -> bool) (ls : list RawLink)
  (acc : list string) (x : string) :
  In x (fold_left
          (fun acc l => if cond l
                        then set_add (set_add acc (sourceOf l)) (targetOf l)
                        else acc) ls acc)
  <-> In x acc
      \/ exists l, In l ls /\ cond l = true /\ (sourceOf l = x \/ targetOf l = x).
Proof.
  revert acc. induction ls as [|l ls IH]; intros acc; simpl.
  - split; [auto | intros [H | [l [[] _]]]; exact H].
  - rewrite IH. destruct (cond l) eqn:E.
    + rewrite !set_add_In. split.
      * intros [[[H | ->] | ->] | [l' [Hl' H]]].
        -- now left.
        -- right. exists l. tauto.
        -- right. exists l. tauto.
        -- right. exists l'. tauto.
      * intros [H | [l' [[<- | Hl'] [Hc [<- | <-]]]]]; try tauto.
        -- right. exists l'. tauto.
        -- right. exists l'. tauto.
    + split.
      * intros [H | [l' [Hl' H]]]; [now left|]. right. exists l'. tauto.
      * intros [H | [l' [[<- | Hl'] [Hc H]]]]; [now left | congruence |].
        right. exists l'. tauto.
Qed.

Lemma toLowerCase_nonempty (s : string) : s <> "" -> toLowerCase s <> "".
Proof. destruct s; [congruence | discriminate]. Qed.

(** X11: for a non-empty term the live search returns at most 12 nodes
    of the graph, each with an id that contains the term ignoring case;
    when no more than 12 nodes match, every node whose id contains the
    term as typed is returned; lower-casing the term changes nothing. *)
Theorem search_results (data : QueryData) (searchTerm : string) :
  searchTerm <> "" ->
  (List.length (searchResults (Some data) searchTerm) <= 12)%nat
  /\ (forall n, In n (searchResults (Some data) searchTerm) ->
                In n (d_nodes data) /\ matchesTerm searchTerm n = true)
  /\ ((List.length (filter (matchesTerm searchTerm) (d_nodes data)) <= 12)%nat ->
      forall n, In n (d_nodes data) -> includes (n_id n) searchTerm = true ->
                In n (searchResults (Some data) searchTerm))
  /\ searchResults (Some data) (toLowerCase searchTerm)
     = searchResults (Some data) searchTerm.
Proof.
  intros Hne. unfold searchResults.
  rewrite (proj2 (String.eqb_neq _ _) Hne).
  rewrite (proj2 (String.eqb_neq _ _) (toLowerCase_nonempty Hne)).
  fold (matchesTerm searchTerm). split; [apply firstn_le_length|]. split; [|split].
  - intros n Hn. apply filter_In.
    rewrite <- (firstn_skipn 12 (filter (matchesTerm searchTerm) (d_nodes data))).
    apply in_or_app. now left.
  - intros Hlen n Hn Hi. rewrite firstn_all2 by exact Hlen.
    apply filter_In. split; [exact Hn|]. now apply includes_toLowerCase.
  - now rewrite toLowerCase_idem.
Qed.

Lemma search_results_witness :
  searchResults (Some incidents) "APT" = [ mkNode "APT1" "actor" 3 ]
  /\ searchResults (Some incidents) (toLowerCase "APT")
     = searchResults (Some incidents) "APT".
Proof.
  split; [vm_compute; reflexivity|].
  apply (search_results incidents (searchTerm := "APT")). discriminate.
Defined.

Lemma neighborIds_In (data : QueryData) (sel : Node) (x : string) :
  In x (neighborIds data sel)
  <-> exists l, In l (d_links data) /\ linkLit sel l = true
                /\ (sourceOf l = x \/ targetOf l = x).
Proof.
  unfold neighborIds.
  rewrite (fold_collect_In (linkLit sel) (d_links data) [] x). simpl. tauto.
Qed.

(** X12: clicking a node keeps at full opacity exactly the node itself
    and the nodes joined to it by a link in either direction; a link drawn
    strong never ends at a dimmed node. *)
Theorem highlight_neighbours (data : QueryData) (sel : Node) :
  (forall d, nodeLit data sel d = true
             <-> n_id d = n_id sel \/ adjacent data (n_id sel) (n_id d))
  /\ (forall l d, In l (d_links data) -> linkLit sel l = true ->
                  n_id d = sourceOf l \/ n_id d = targetOf l ->
                  nodeLit data sel d = true).
Proof.
  split.
  - intros d. unfold nodeLit.
    rewrite orb_true_iff, String.eqb_eq, set_has_In, neighborIds_In.
    unfold adjacent, linkLit, sourceOf, targetOf. split.
    + intros [H | [l [Hl [Hc Hx]]]]; [now left|].
      apply orb_true_iff in Hc. rewrite !String.eqb_eq in Hc.
      destruct Hc as [Hs | Ht], Hx as [Hx | Hx].
      * left. congruence.
      * right. exists l. tauto.
      * right. exists l. tauto.
      * left. congruence.
    + intros [H | [l [Hl H]]]; [now left|]. right. exists l. split; [exact Hl|].
      rewrite orb_true_iff, !String.eqb_eq. tauto.
  - intros l d Hl Hc Hd. unfold nodeLit. apply orb_true_iff. right.
    apply set_has_In, neighborIds_In. exists l. split; [exact Hl|].
    split; [exact Hc|]. destruct Hd as [-> | ->]; auto.
Qed.

Lemma highlight_neighbours_witness :
  nodeLit incidents (mkNode "Grid" "victim" 1) (mkNode "APT1" "actor" 3) = true.
Proof.
  destruct (highlight_neighbours incidents (mkNode "Grid" "victim" 1)) as [_ H].
  apply (H (mkRawLink (PlainId "APT1") (NodeObj "Grid") None (Some "actor_to_victim"))).
  - simpl. tauto.
  - vm_compute. reflexivity.
  - left. reflexivity.
Defined.

Lemma matchIds_has (results : list Node) (x : string) :
  set_has (matchIds results) x = true <-> isMatch results x.
Proof.
  unfold matchIds, isMatch. rewrite set_has_In, set_of_In, in_map_iff.
  split; intros [n H]; exists n; tauto.
Qed.

(** The test of [applyLiveSearch] on a link. *)
Definition touchesMatch (results : list Node) (l : RawLink) : bool :=
  set_has (matchIds results) (sourceOf l) || set_has (matchIds results) (targetOf l).

Lemma keep_has (data : QueryData) (results : list Node) (x : string) :
  set_has (keep data results) x = true
  <-> isMatch results x
      \/ exists l, In l (d_links data) /\ touchesMatch results l = true
                   /\ (sourceOf l = x \/ targetOf l = x).
Proof.
  unfold keep, liveNeighborIds. rewrite set_has_In, set_of_In, in_app_iff.
  rewrite <- set_has_In, matchIds_has.
  rewrite (fold_collect_In (touchesMatch results) (d_links data) [] x).
  simpl. tauto.
Qed.

(** X13: the live search keeps visible exactly the matched ids and the
    endpoints of links that touch a matched id; every link touching a
    match is drawn strong, and so is every matched node. *)
Theorem live_search_keep (data : QueryData) (results : list Node) :
  (forall x, set_has (keep data results) x = true
             <-> isMatch results x
                 \/ exists l, In l (d_links data)
                              /\ (isMatch results (sourceOf l)
                                  \/ isMatch results (targetOf l))
                              /\ (sourceOf l = x \/ targetOf l = x))
  /\ (forall l, In l (d_links data) ->
                isMatch results (sourceOf l) \/ isMatch results (targetOf l) ->
                linkKept data results l = true)
  /\ (forall n, In n results -> nodeKept data results n = true).
Proof.
  assert (T : forall l, touchesMatch results l = true
                        <-> isMatch results (sourceOf l) \/ isMatch results (targetOf l)).
  { intros l. unfold touchesMatch. now rewrite orb_true_iff, !matchIds_has. }
  split; [|split].
  - intros x. rewrite keep_has. split.
    + intros [H | [l [Hl [Hc Hx]]]]; [now left|]. right. exists l.
      rewrite <- T. tauto.
    + intros [H | [l [Hl [Hc Hx]]]]; [now left|]. right. exists l.
      rewrite T. tauto.
  - intros l Hl Hm. unfold linkKept. fold (sourceOf l) (targetOf l).
    apply andb_true_iff. split; apply keep_has; right; exists l;
      rewrite T; tauto.
  - intros n Hn. unfold nodeKept. apply keep_has. left. exists n. tauto.
Qed.

Lemma live_search_keep_witness :
  linkKept incidents (searchResults (Some incidents) "grid")
    (mkRawLink (PlainId "APT1") (NodeObj "Grid") None (Some "actor_to_victim"))
  = true.
Proof.
  destruct (live_search_keep incidents (searchResults (Some incidents) "grid"))
    as [_ [H _]].
  apply H.
  - simpl. tauto.
  - right. exists (mkNode "Grid" "victim" 1). split; [|reflexivity].
    vm_compute. tauto.
Defined.

(** X14: at most 16 nodes are labelled, in descending order of degree,
    and no unlabelled node has a larger degree than a labelled one. *)
Theorem top_nodes_highest_degree (data : QueryData) :
  List.length (topNodes data) = Nat.min 16 (List.length (d_nodes data))
  /\ descending n_degree (topNodes data)
  /\ exists rest,
       Permutation (d_nodes data) (topNodes data ++ rest)
       /\ forall a b, In a (topNodes data) -> In b rest ->
                      (n_degree b <= n_degree a)%Z.
Proof.
  unfold topNodes.
  destruct (firstn_sortDesc n_degree 16 (d_nodes data)) as [Hd [_ [_ [Hc Hp]]]].
  split; [now rewrite length_firstn, sortDesc_length|].
  split; [exact Hd|].
  exists (skipn 16 (sortDesc n_degree (d_nodes data))). auto.
Qed.

End ViewSpec.

(* ================================================================= *)
(** ** Properties of the node detail panel *)

Module PanelSpec.
Import Js JsFacts Normalize Query QueryFacts TallyFacts QueryExtra View Panel.
Import NormalizeExtra.

(** The last character is white space. *)
Fixpoint endsWithSpace (s : string) : bool :=
  match s with
  | EmptyString => false
  | String c EmptyString => isSpace c
  | String _ s' => endsWithSpace s'
  end.

Fixpoint lastChar (s : string) : option ascii :=
  match s with
  | EmptyString => None
  | String c EmptyString => Some c
  | String _ s' => lastChar s'
  end.

(** A details document with an entry for X only. *)
Definition detailsDoc : JsMap Details :=
  [ ("X", mkDetails (Some [("A", 5%Z); ("B", 9%Z)]) None None (Some 14%Z)) ].

Lemma tagAt_length (s : string) :
  tagAt s = true -> String.length (trimStart s) = 3%nat.
Proof.
  unfold tagAt. destruct (trimStart s) as [|a [|c [|b [|x y]]]];
    try discriminate. reflexivity.
Qed.

Lemma stripTag_unfold (s : string) :
  stripTag s
  = if tagAt s then EmptyString
    else match s with
         | EmptyString => EmptyString
         | String c s' => String c (stripTag s')
         end.
Proof. destruct s; reflexivity. Qed.

Lemma endsWithSpace_tail (c : ascii) (s : string) :
  endsWithSpace (String c s) = false -> endsWithSpace s = false.
Proof. destruct s; [reflexivity | simpl; auto]. Qed.

Lemma trimStart_keeps_suffix (sfx y : string) :
  y <> "" -> endsWithSpace y = false ->
  (String.length sfx < String.length (trimStart (String.append y sfx)))%nat.
Proof.
  induction y as [|c y IH]; intros Hne He; [congruence|].
  simpl String.append. simpl trimStart. destruct (isSpace c) eqn:Sc.
  - destruct y as [|d y].
    + simpl in He. congruence.
    + apply IH; [discriminate | exact He].
  - simpl. rewrite length_append. lia.
Qed.

Lemma stripTag_variant (sfx x : string) :
  String.length sfx = 4%nat -> tagAt sfx = true ->
  endsWithSpace x = false -> stripTag (String.append x sfx) = x.
Proof.
  intros Hlen Htag. induction x as [|c x IH]; intros He.
  - simpl String.append. rewrite stripTag_unfold, Htag. reflexivity.
  - simpl String.append. rewrite stripTag_unfold.
    destruct (tagAt (String c (String.append x sfx))) eqn:T.
    + exfalso. apply tagAt_length in T.
      assert (L := @trimStart_keeps_suffix sfx (String c x)
                     ltac:(discriminate) He).
      simpl String.append in L. lia.
    + now rewrite (IH (endsWithSpace_tail _ _ He)).
Qed.

(** X15: the key under which the panel looks up details undoes the
    split: for an id that does not end in white space, stripping the tag
    from either variant gives back the id. *)
Theorem variant_key_round_trip (x : string) :
  endsWithSpace x = false ->
  stripTag (sponsorId x) = x /\ stripTag (victimId x) = x.
Proof.
  intros H. split; apply stripTag_variant; auto.
Qed.

Lemma variant_key_round_trip_witness :
  stripTag (sponsorId "Russian Federation") = "Russian Federation"
  /\ stripTag (victimId "Russian Federation") = "Russian Federation".
Proof. apply variant_key_round_trip. reflexivity. Defined.

Lemma tagAt_lastChar (s : string) : tagAt s = true -> lastChar s = Some "]"%char.
Proof.
  induction s as [|c s IH]; [discriminate|].
  unfold tagAt. simpl trimStart. destruct (isSpace c) eqn:Sc.
  - intros H. destruct s as [|d s]; [discriminate H|].
    change (lastChar (String d s) = Some "]"%char). apply IH. exact H.
  - destruct s as [|x [|b [|y z]]]; try discriminate.
    intros H. apply andb_true_iff in H. destruct H as [_ H].
    apply Ascii.eqb_eq in H. now subst b.
Qed.

(** X16: stripping the tag only ever removes an ending of the id, and an
    id whose last character is not a closing bracket is left as it is. *)
Theorem stripTag_removes_suffix (s : string) :
  (exists rest, s = String.append (stripTag s) rest)
  /\ (lastChar s <> Some "]"%char -> stripTag s = s).
Proof.
  split.
  - induction s as [|c s [rest IH]]; [exists EmptyString; reflexivity|].
    rewrite stripTag_unfold. destruct (tagAt (String c s)).
    + exists (String c s). reflexivity.
    + exists rest. simpl. now rewrite <- IH.
  - induction s as [|c s IH]; intros H; [reflexivity|].
    rewrite stripTag_unfold.
    destruct (tagAt (String c s)) eqn:T; [now apply tagAt_lastChar in T|].
    destruct s as [|d s]; [reflexivity|].
    rewrite IH; [reflexivity | exact H].
Qed.

Lemma stripTag_removes_suffix_witness : stripTag "APT28" = "APT28".
Proof.
  apply (proj2 (stripTag_removes_suffix "APT28")). discriminate.
Defined.

(** X17: when the details document has an entry for an id that does not
    end in white space, both variants of that id show that entry. *)
Theorem variants_share_details (data : JsMap Details) (x : string) (d : Details)
  (ts tt : string) (ds dt : Z) :
  endsWithSpace x = false -> map_get data x = Some d ->
  foundDetails data (mkNode (sponsorId x) ts ds) = Some d
  /\ foundDetails data (mkNode (victimId x) tt dt) = Some d.
Proof.
  intros He Hd. unfold foundDetails. simpl.
  rewrite (@stripTag_variant " [S]" x eq_refl eq_refl He : stripTag (sponsorId x) = x).
  rewrite (@stripTag_variant " [T]" x eq_refl eq_refl He : stripTag (victimId x) = x).
  now rewrite Hd.
Qed.

Lemma variants_share_details_witness :
  foundDetails detailsDoc (mkNode (sponsorId "X") "sponsor" 2)
  = map_get detailsDoc "X"
  /\ foundDetails detailsDoc (mkNode (victimId "X") "victim" 1)
     = map_get detailsDoc "X".
Proof.
  apply (@variants_share_details detailsDoc "X"); reflexivity.
Defined.

(** *** Charts *)

Definition nameLen (it : NameCount) : Z := Z.of_nat (String.length (nc_name it)).

(** What every chart of the panel satisfies. *)
Definition chartRows (ellipsis : string) (obj : JsMap Z) (rows : list NameCount)
  : Prop :=
  (List.length rows <= 10)%nat
  /\ descending nc_count rows
  /\ (forall e, In e rows ->
        (String.length (nc_name e) <= 28 + String.length ellipsis)%nat
        /\ exists k, In (k, nc_count e) obj /\ nc_name e = clip28 ellipsis k)
  /\ (forall k v, In (k, v) obj -> (List.length obj <= 10)%nat ->
        In (mkNameCount (clip28 ellipsis k) v) rows).

Lemma length_substring_0 (n : nat) (s : string) :
  String.length (String.substring 0 n s) = Nat.min n (String.length s).
Proof.
  revert s. induction n as [|n IH]; intros [|c s]; simpl; try reflexivity.
  now rewrite IH.
Qed.

Lemma clip28_length (ellipsis name : string) :
  (String.length (clip28 ellipsis name) <= 28 + String.length ellipsis)%nat.
Proof.
  unfold clip28. destruct (Nat.ltb_spec 28 (String.length name)) as [H | H].
  - rewrite length_append, length_substring_0. lia.
  - lia.
Qed.

Lemma kvToSortedArr_rows (ellipsis : string) (o : JsMap Z) :
  chartRows ellipsis o (kvToSortedArr ellipsis (Some o)).
Proof.
  unfold chartRows, kvToSortedArr.
  destruct (firstn_sortDesc snd 10 o) as [Hd [Hlen [Hin _]]].
  rewrite length_map. split; [exact Hlen|].
  split; [apply (@descending_map _ _ _ snd nc_count); [reflexivity | exact Hd]|].
  split.
  - intros e He. apply in_map_iff in He. destruct He as [[k v] [<- He]]. simpl.
    split; [apply clip28_length|]. exists k. split; [now apply Hin | reflexivity].
  - intros k v Hkv Hsmall.
    apply (in_map (fun e => mkNameCount (clip28 ellipsis (fst e)) (snd e)) _ (k, v)).
    rewrite firstn_all2 by (rewrite sortDesc_length; exact Hsmall).
    now apply sortDesc_In.
Qed.

Lemma kvToSortedArr_shape (ellipsis : string) (obj : option (JsMap Z)) :
  chartRows ellipsis (nullish obj []) (kvToSortedArr ellipsis obj).
Proof.
  destruct obj as [o|]; [apply kvToSortedArr_rows|].
  unfold chartRows. simpl. split; [lia|]. split; [constructor|].
  split; [intros e [] | intros k v []].
Qed.

(** X18: whatever the node type and the details, each of the two charts
    has at most 10 rows in descending order of count; every row is an entry
    of the charted table with its name clipped to at most 28 characters
    plus the ellipsis, and a table of at most 10 entries is charted in
    full.  Sponsors, actors and other types chart targets then sources;
    victims chart sources then actors. *)
Theorem chart_data_shape (ellipsis : string) (details : Details) (node : Node) :
  let c := getChartData ellipsis (Some details) node in
  if String.eqb (n_type node) "victim"
  then chartRows ellipsis (nullish (dt_sources details) []) (chart1 c)
       /\ chartRows ellipsis (nullish (dt_actors details) []) (chart2 c)
  else chartRows ellipsis (nullish (dt_targets details) []) (chart1 c)
       /\ chartRows ellipsis (nullish (dt_sources details) []) (chart2 c).
Proof.
  unfold getChartData.
  destruct (String.eqb_spec (n_type node) "sponsor") as [E | _].
  { rewrite E. simpl. split; apply kvToSortedArr_shape. }
  destruct (String.eqb_spec (n_type node) "actor") as [E | _].
  { rewrite E. simpl. split; apply kvToSortedArr_shape. }
  destruct (String.eqb (n_type node) "victim"); simpl;
    (split; [apply kvToSortedArr_shape|]).
  - apply kvToSortedArr_rows.
  - apply kvToSortedArr_shape.
Qed.

(** The two charts of a node without details are empty. *)
Example no_details_no_charts (ellipsis : string) (node : Node) :
  chart1 (getChartData ellipsis None node) = []
  /\ chart2 (getChartData ellipsis None node) = [].
Proof. split; reflexivity. Qed.

(** *** The shared axis width *)

Lemma strOr_name_length (n : string) :
  String.length (strOr (Some n) "") = String.length n.
Proof. simpl. destruct (String.eqb_spec n ""); [now subst | reflexivity]. Qed.

Definition innerMax (a : list NameCount) (m : Z) : Z :=
  fold_left
    (fun mm it => Z.max mm (Z.of_nat (String.length (strOr (Some (nc_name it)) ""))))
    a m.

Lemma innerMax_spec (a : list NameCount) (m : Z) :
  (m <= innerMax a m)%Z
  /\ (forall it, In it a -> (nameLen it <= innerMax a m)%Z)
  /\ (forall B, (m <= B)%Z -> (forall it, In it a -> (nameLen it <= B)%Z) ->
                (innerMax a m <= B)%Z).
Proof.
  unfold innerMax, nameLen. revert m. induction a as [|x a IH]; intros m.
  - simpl. split; [lia|]. split; [intros it [] | intros B H _; exact H].
  - cbn [fold_left]. rewrite strOr_name_length.
    destruct (IH (Z.max m (Z.of_nat (String.length (nc_name x))))) as [H1 [H2 H3]].
    split; [lia|]. split.
    + intros it [<- | Hit]; [lia | now apply H2].
    + intros B Hm Hall. apply H3; [|intros it Hit; apply Hall; now right].
      specialize (Hall x (or_introl eq_refl)). lia.
Qed.

Definition outerMax (ds : list (option (list NameCount))) (m : Z) : Z :=
  fold_left
    (fun m arr =>
       match arr with
       | None => m
       | Some a =>
           if (List.length a =? 0)%nat then m else Z.max m (innerMax a 0)
       end)
    ds m.

Lemma outerMax_spec (ds : list (option (list NameCount))) (m : Z) :
  (m <= outerMax ds m)%Z
  /\ (forall a it, In (Some a) ds -> In it a -> (nameLen it <= outerMax ds m)%Z)
  /\ (forall B, (m <= B)%Z ->
                (forall a it, In (Some a) ds -> In it a -> (nameLen it <= B)%Z) ->
                (outerMax ds m <= B)%Z).
Proof.
  unfold outerMax. revert m. induction ds as [|arr ds IH]; intros m; simpl.
  - split; [lia|]. split; [intros a it [] | intros B H _; exact H].
  - set (m' := match arr with
               | None => m
               | Some a => if (List.length a =? 0)%nat then m
                           else Z.max m (innerMax a 0)
               end).
    destruct (IH m') as [H1 [H2 H3]].
    assert (Hm : (m <= m')%Z).
    { unfold m'. destruct arr as [a|]; [|lia].
      destruct (List.length a =? 0)%nat; lia. }
    split; [lia|]. split.
    + intros a it [-> | Ha] Hit; [|now apply (H2 a)].
      assert (Hge : (nameLen it <= m')%Z).
      { unfold m'. destruct a as [|x a]; [destruct Hit|]. simpl Nat.eqb.
        destruct (innerMax_spec (x :: a) 0) as [_ [G _]].
        specialize (G it Hit). lia. }
      lia.
    + intros B HB Hall. apply H3.
      * unfold m'. destruct arr as [[|x a]|]; [exact HB | | exact HB].
        simpl Nat.eqb. cbv iota.
        destruct (innerMax_spec (x :: a) 0) as [_ [_ G]].
        assert (H0 : (0 <= B)%Z).
        { specialize (Hall (x :: a) x (or_introl eq_refl) (or_introl eq_refl)).
          unfold nameLen in Hall. lia. }
        specialize (G B H0 (fun it Hit => Hall (x :: a) it (or_introl eq_refl) Hit)).
        lia.
      * intros a it Ha. apply Hall. now right.
Qed.

Lemma maxLen_outerMax (datasets : option (list (option (list NameCount)))) :
  maxLen datasets = outerMax (nullish datasets []) 0.
Proof. reflexivity. Qed.

(** X19: the shared axis width always lies between 75 and 160; it is 75
    when no name is longer than 10 characters (or there is no row at all),
    160 as soon as some name has 23 characters or more, and 7 per character
    of the longest name in between. *)
Theorem y_axis_width (datasets : option (list (option (list NameCount)))) :
  (75 <= getYAxisWidth datasets <= 160)%Z
  /\ ((forall a it, In (Some a) (nullish datasets []) -> In it a ->
                    (nameLen it <= 10)%Z) ->
      getYAxisWidth datasets = 75%Z)
  /\ (forall a it, In (Some a) (nullish datasets []) -> In it a ->
                   (23 <= nameLen it)%Z -> getYAxisWidth datasets = 160%Z)
  /\ (forall a it, In (Some a) (nullish datasets []) -> In it a ->
        (11 <= nameLen it <= 22)%Z ->
        (forall a' it', In (Some a') (nullish datasets []) -> In it' a' ->
                        (nameLen it' <= nameLen it)%Z) ->
        getYAxisWidth datasets = (7 * nameLen it)%Z).
Proof.
  unfold getYAxisWidth. rewrite maxLen_outerMax.
  destruct (outerMax_spec (nullish datasets []) 0) as [H0 [Hge Hle]].
  split; [lia|]. split; [|split].
  - intros Hall. specialize (Hle 10%Z ltac:(lia) Hall). lia.
  - intros a it Ha Hit Hlong. specialize (Hge a it Ha Hit). lia.
  - intros a it Ha Hit Hmid Hmax. specialize (Hge a it Ha Hit).
    assert (Hn : (0 <= nameLen it)%Z) by lia.
    specialize (Hle (nameLen it) Hn Hmax). lia.
Qed.

Lemma y_axis_width_witness :
  getYAxisWidth (Some [ Some [ mkNameCount "Bank" 3 ]; None; Some [] ]) = 75%Z.
Proof.
  apply (proj1 (proj2 (y_axis_width _))). intros a it Ha Hit.
  simpl in Ha. destruct Ha as [[= <-] | [Ha | [[= <-] | []]]];
    [|discriminate Ha|destruct Hit].
  destruct Hit as [<- | []]. vm_compute. discriminate.
Defined.

End PanelSpec.
